(** * a11yfox audit: a shallow embedding of [audit.mjs]

    The script reads URLs from [urls.csv], audits each one with Lighthouse
    through a headless browser, retries failed audits, and streams one row per
    URL to [results.csv].

    JavaScript strings are sequences of UTF-16 code units, numbers are IEEE 754
    doubles (Rocq's primitive floats), and everything the script does to the
    outside world (browser, timers, console, output stream) is recorded as an
    event of a trace.  What the outside world answers is read from an oracle,
    one [Behaviour] per call of [runLighthouseAudit]. *)

From Stdlib Require Import List String Ascii NArith Bool Arith Lia PrimFloat.
Import ListNotations.

Set Implicit Arguments.

(** ** JavaScript strings *)

Module Js.

(** A string value: its UTF-16 code units. *)
Definition jsstring : Type := list N.

(** An ASCII literal of the script as a string value. *)
Definition lit (s : string) : jsstring :=
  map N_of_ascii (list_ascii_of_string s).

(** [a === b] on strings. *)
Fixpoint eqb (a b : jsstring) : bool :=
  match a, b with
  | [], [] => true
  | x :: a', y :: b' => N.eqb x y && eqb a' b'
  | _, _ => false
  end.

(** ToBoolean on a string: only the empty string is falsy. *)
Definition truthy (s : jsstring) : bool :=
  match s with
  | [] => false
  | _ :: _ => true
  end.

(** [a || b] on strings. *)
Definition or (a b : jsstring) : jsstring :=
  if truthy a then a else b.

(** The code units [String.prototype.trim] strips: ECMAScript WhiteSpace
    (TAB, VT, FF, ZWNBSP and the Unicode space separators) and
    LineTerminator (LF, CR, LS, PS). *)
Definition is_white (c : N) : bool :=
  ((9 <=? c) && (c <=? 13) || (c =? 32) || (c =? 160) || (c =? 5760)
   || (8192 <=? c) && (c <=? 8202) || (c =? 8232) || (c =? 8233)
   || (c =? 8239) || (c =? 8287) || (c =? 12288) || (c =? 65279))%N.

Fixpoint trimStart (s : jsstring) : jsstring :=
  match s with
  | [] => []
  | c :: s' => if is_white c then trimStart s' else s
  end.

Definition trimEnd (s : jsstring) : jsstring :=
  rev (trimStart (rev s)).

(** [s.trim()]. *)
Definition trim (s : jsstring) : jsstring :=
  trimEnd (trimStart s).

(** [s] begins with the code units of [p]. *)
Fixpoint startsWith (p s : jsstring) : bool :=
  match p, s with
  | [], _ => true
  | x :: p', y :: s' => N.eqb x y && startsWith p' s'
  | _ :: _, [] => false
  end.

(** A pattern letter under the [i] flag: a code unit matches the lower-case
    ASCII letter [l] when it is [l] or its upper-case form.  (Without the
    [u] flag no code unit above 127 is canonicalised to an ASCII letter.) *)
Definition letter_i (l : ascii) (c : N) : bool :=
  ((c =? N_of_ascii l) || (c =? N_of_ascii l - 32))%N.

End Js.

(** ** URL loader (lines 13-27) *)

(** [/^https?:\/\//i.test(s)] *)
Definition has_scheme (s : Js.jsstring) : bool :=
  match s with
  | h :: t1 :: t2 :: p :: rest =>
      Js.letter_i "h" h && Js.letter_i "t" t1 && Js.letter_i "t" t2
      && Js.letter_i "p" p
      && (Js.startsWith (Js.lit "://") rest
          || match rest with
             | s' :: rest' => Js.letter_i "s" s' && Js.startsWith (Js.lit "://") rest'
             | [] => false
             end)
  | _ => false
  end.

(** A row object produced by the CSV parser; only its [url] property is read.
    [None] is a row without that property ([undefined]). *)
Record CsvRow : Type := mkCsvRow { row_url : option Js.jsstring }.

(** Lines 21-24: the value pushed for a row whose [url] is [u]. *)
Definition formattedUrl (u : Js.jsstring) : Js.jsstring :=
  let formattedUrl := Js.trim u in
  if negb (has_scheme formattedUrl)
  then (Js.lit "http://" ++ formattedUrl)%list
  else formattedUrl.

(** The ['data'] handler (lines 18-27), as a function of the array [urls]. *)
Definition on_data (urls : list Js.jsstring) (row : CsvRow) : list Js.jsstring :=
  match row_url row with
  | Some u => if Js.truthy u then (urls ++ [formattedUrl u])%list else urls
  | None => urls
  end.

(** The array [urls] when ['end'] fires: the handler ran once per row, in
    order, from the empty array. *)
Definition load (rows : list CsvRow) : list Js.jsstring :=
  fold_left on_data rows [].

(** ** Constants (lines 9-10) *)

Definition maxRetries : nat := 3.
Definition auditTimeout : N := 60000.

(** The message of the error the audit timer rejects with (line 98). *)
Definition timeout_message : Js.jsstring := Js.lit "Lighthouse audit timed out".

(** ** Values *)

(** A thrown value; the script only ever reads its [message]. *)
Record Error : Type := mkError { message : Js.jsstring }.

(** The object [runLighthouseAudit] resolves with (lines 102-106). *)
Record AuditResult : Type := mkAuditResult {
  score : float;
  metaTitle : Js.jsstring;
  metaDescription : Js.jsstring
}.

(** The three [let] variables of one URL (lines 42-44); [None] is
    [undefined]. *)
Record Locals : Type := mkLocals {
  l_score : option float;
  l_metaTitle : Js.jsstring;
  l_metaDescription : Js.jsstring
}.

(** The object handed to [csvStream.write] (line 66). *)
Record ResultRow : Type := mkResultRow {
  url : Js.jsstring;
  r_score : option float;
  r_metaTitle : Js.jsstring;
  r_metaDescription : Js.jsstring
}.

(** ** Events *)

(** The lines the script prints, by template. *)
Inductive LogLine : Type :=
| CsvProcessed
| Processing (url : Js.jsstring)
| AttemptFor (attempt : nat) (url : Js.jsstring)
| SuccessfullyProcessed (url : Js.jsstring) (score : float)
| AttemptFailed (attempt : nat) (url : Js.jsstring) (msg : Js.jsstring)
| Skipping (url : Js.jsstring)
| AuditsCompleted
| Navigating (url : Js.jsstring)
| Extracting (url : Js.jsstring)
| RunningLighthouse (url : Js.jsstring)
| ErrorDuring (url : Js.jsstring) (msg : Js.jsstring).

Inductive Event : Type :=
| ConsoleLog (l : LogLine)
| ConsoleError (l : LogLine)
| Sleep (ms : N)                   (* await new Promise(r => setTimeout(r, ms)) *)
| OpenOutput                       (* lines 32-34 *)
| Write (row : ResultRow)          (* csvStream.write(row) *)
| EndOutput                        (* csvStream.end() *)
| Launch                           (* puppeteer.launch({ headless: true }) *)
| NewPage                          (* browser.newPage() *)
| Goto (url : Js.jsstring)         (* page.goto(url, ...) *)
| Title                            (* page.title() *)
| EvalDescription                  (* page.$eval('meta[name="description"]', ...) *)
| ImportLighthouse                 (* import('lighthouse') *)
| CallLighthouse (url : Js.jsstring)
| SetTimer (ms : N)                (* the rejecting timer of line 98 *)
| Close.                           (* browser.close() *)

(** ** The outside world *)

(** How an awaited external promise settles. *)
Inductive Settled (A : Type) : Type :=
| Fulfilled (a : A)
| Rejected (e : Error).
Arguments Fulfilled {A} a.
Arguments Rejected {A} e.

(** The Lighthouse promise as seen by the race of line 100: it resolves with
    a report whose accessibility score is [fraction], it rejects, or it is
    still pending when the timer fires.  (A report without the fields read at
    lines 100 and 103 makes those lines throw a TypeError at the same place;
    that is a rejection here.) *)
Inductive LighthouseRun : Type :=
| Reports (fraction : float)
| Fails (e : Error)
| StillPending.

(** What the browser and Lighthouse do during one call of
    [runLighthouseAudit]. *)
Record Behaviour : Type := mkBehaviour {
  on_launch : Settled unit;
  on_newPage : Settled unit;
  on_goto : Settled unit;
  on_title : Settled Js.jsstring;
  on_evalDescription : Settled Js.jsstring;
  on_import : Settled unit;
  on_lighthouse : LighthouseRun;
  on_close : Settled unit
}.

(** The state threaded through the script: how many times
    [runLighthouseAudit] was entered, and everything done so far. *)
Record World : Type := mkWorld {
  calls : nat;
  trace : list Event
}.

(** ** Control flow: a state and exception monad *)

Inductive Completion (A : Type) : Type :=
| Normal (a : A)
| Throw (e : Error).
Arguments Normal {A} a.
Arguments Throw {A} e.

Definition M (A : Type) : Type := World -> Completion A * World.

Definition ret {A} (a : A) : M A := fun w => (Normal a, w).

Definition throw {A} (e : Error) : M A := fun w => (Throw e, w).

Definition bind {A B} (m : M A) (f : A -> M B) : M B :=
  fun w =>
    match m w with
    | (Normal a, w') => f a w'
    | (Throw e, w') => (Throw e, w')
    end.

Declare Scope js_scope.
Delimit Scope js_scope with js.
Notation "x <- m ;; k" := (bind m (fun x => k))
  (at level 61, m at next level, right associativity) : js_scope.
Notation "m ;; k" := (bind m (fun _ => k))
  (at level 61, right associativity) : js_scope.
Open Scope js_scope.

(** Record one event. *)
Definition emit (ev : Event) : M unit :=
  fun w => (Normal tt, {| calls := calls w; trace := trace w ++ [ev] |}).

(** Await an external promise: the call is made, then it settles. *)
Definition await {A} (ev : Event) (s : Settled A) : M A :=
  emit ev ;;
  match s with
  | Fulfilled a => ret a
  | Rejected e => throw e
  end.

(** [try { body } catch (error) { handler error }] *)
Definition try_catch {A} (body : M A) (handler : Error -> M A) : M A :=
  fun w =>
    match body w with
    | (Normal a, w') => (Normal a, w')
    | (Throw e, w') => handler e w'
    end.

(** [try { body } finally { cleanup }]: the cleanup always runs; when it
    throws, its error replaces the completion of the body. *)
Definition try_finally {A} (body : M A) (cleanup : M unit) : M A :=
  fun w =>
    match body w with
    | (c, w') =>
        match cleanup w' with
        | (Normal _, w'') => (c, w'')
        | (Throw e, w'') => (Throw e, w'')
        end
    end.

(** [promise.catch(() => fallback)] *)
Definition or_else {A} (s : Settled A) (fallback : A) : Settled A :=
  match s with
  | Fulfilled a => Fulfilled a
  | Rejected _ => Fulfilled fallback
  end.

(** How a loop body ends: [break], or on to the next iteration. *)
Inductive Flow (A : Type) : Type :=
| Break (a : A)
| Continue (a : A).
Arguments Break {A} a.
Arguments Continue {A} a.

(** ** The script *)

Section Script.

(** What the outside world does during the k-th call of
    [runLighthouseAudit] (counted from 0 over the whole run). *)
Variable oracle : nat -> Behaviour.

(** Entering [runLighthouseAudit]: the call is counted and its environment
    fixed. *)
Definition enter : M Behaviour :=
  fun w => (Normal (oracle (calls w)),
            {| calls := S (calls w); trace := trace w |}).

(** The race of lines 92-100, returning [lhr.categories.accessibility.score]. *)
Definition race (url : Js.jsstring) (run : LighthouseRun) : M float :=
  emit (CallLighthouse url) ;;
  emit (SetTimer auditTimeout) ;;
  match run with
  | Reports fraction => ret fraction
  | Fails e => throw e
  | StillPending => throw {| message := timeout_message |}
  end.

(** Lines 74-113, in the environment [b]. *)
Definition runLighthouseAudit_in (b : Behaviour) (url : Js.jsstring)
  : M AuditResult :=
  await Launch (on_launch b) ;;
  await NewPage (on_newPage b) ;;
  try_finally
    (try_catch
       (emit (ConsoleLog (Navigating url)) ;;
        await (Goto url) (on_goto b) ;;
        emit (ConsoleLog (Extracting url)) ;;
        metaTitle <- await Title (on_title b) ;;
        metaDescription <-
          await EvalDescription
            (or_else (on_evalDescription b) (Js.lit "No meta description")) ;;
        emit (ConsoleLog (RunningLighthouse url)) ;;
        await ImportLighthouse (on_import b) ;;
        fraction <- race url (on_lighthouse b) ;;
        ret {| score := PrimFloat.mul fraction 100;
               metaTitle := metaTitle;
               metaDescription := metaDescription |})
       (fun error =>
          emit (ConsoleError (ErrorDuring url (message error))) ;;
          throw error))
    (await Close (on_close b)).

(** [runLighthouseAudit(url)] *)
Definition runLighthouseAudit (url : Js.jsstring) : M AuditResult :=
  b <- enter ;;
  runLighthouseAudit_in b url.

(** Line 54: is a failure of attempt [attempt] with [error] the last one? *)
Definition gives_up (attempt : nat) (error : Error) : bool :=
  (attempt =? maxRetries)
  || ((attempt =? 2) && Js.eqb (message error) timeout_message).

(** The body of the retry loop (lines 47-63) for one value of [attempt]. *)
Definition attempt_body (url : Js.jsstring) (attempt : nat) (v : Locals)
  : M (Flow Locals) :=
  try_catch
    (emit (ConsoleLog (AttemptFor attempt url)) ;;
     r <- runLighthouseAudit url ;;
     emit (ConsoleLog (SuccessfullyProcessed url (score r))) ;;
     ret (Break {| l_score := Some (score r);
                   l_metaTitle := metaTitle r;
                   l_metaDescription := metaDescription r |}))
    (fun error =>
       emit (ConsoleError (AttemptFailed attempt url (message error))) ;;
       if gives_up attempt error
       then
         emit (ConsoleError (Skipping url)) ;;
         ret (Break {| l_score := Some 0%float;
                       l_metaTitle := Js.or (l_metaTitle v) (Js.lit "N/A");
                       l_metaDescription :=
                         Js.or (l_metaDescription v) (Js.lit "N/A") |})
       else
         emit (Sleep 3000) ;;
         ret (Continue v)).

(** The retry loop (lines 46-64) from [attempt] on; [remaining] is the
    number of values [attempt] can still take, [maxRetries + 1 - attempt]. *)
Fixpoint retry_loop (url : Js.jsstring) (remaining attempt : nat) (v : Locals)
  : M Locals :=
  match remaining with
  | O => ret v
  | S remaining' =>
      f <- attempt_body url attempt v ;;
      match f with
      | Break v' => ret v'
      | Continue v' => retry_loop url remaining' (S attempt) v'
      end
  end.

(** One iteration of [for (const url of urls)] (lines 37-66). *)
Definition process_url (url : Js.jsstring) : M unit :=
  emit (ConsoleLog (Processing url)) ;;
  emit (Sleep 3000) ;;
  v <- retry_loop url (maxRetries + 1 - 1) 1
         {| l_score := None; l_metaTitle := Js.lit ""; l_metaDescription := Js.lit "" |} ;;
  emit (Write {| url := url;
                 r_score := l_score v;
                 r_metaTitle := l_metaTitle v;
                 r_metaDescription := l_metaDescription v |}).

(** [for (const url of urls) { ... }] *)
Fixpoint for_each (urls : list Js.jsstring) : M unit :=
  match urls with
  | [] => ret tt
  | url :: urls' => process_url url ;; for_each urls'
  end.

(** The ['end'] handler (lines 28-71), given the loaded [urls]. *)
Definition on_end (urls : list Js.jsstring) : M unit :=
  emit (ConsoleLog CsvProcessed) ;;
  emit OpenOutput ;;
  for_each urls ;;
  emit EndOutput ;;
  emit (ConsoleLog AuditsCompleted).

(** The whole script on the parsed rows of [urls.csv]. *)
Definition main (rows : list CsvRow) : M unit :=
  on_end (load rows).

End Script.

(** ** Reading a trace *)

(** How many times [browser.close()] was called. *)
Fixpoint teardowns (t : list Event) : nat :=
  match t with
  | [] => 0
  | Close :: t' => S (teardowns t')
  | _ :: t' => teardowns t'
  end.

(** How many browsers were launched. *)
Fixpoint launches (t : list Event) : nat :=
  match t with
  | [] => 0
  | Launch :: t' => S (launches t')
  | _ :: t' => launches t'
  end.

(** How many 3-second pauses were taken. *)
Fixpoint pauses (t : list Event) : nat :=
  match t with
  | [] => 0
  | Sleep _ :: t' => S (pauses t')
  | _ :: t' => pauses t'
  end.

(** The rows written to the output stream, oldest first. *)
Fixpoint written (t : list Event) : list ResultRow :=
  match t with
  | [] => []
  | Write row :: t' => row :: written t'
  | _ :: t' => written t'
  end.

(** The initial state of a run. *)
Definition start : World := {| calls := 0; trace := [] |}.

(** What a call of [runLighthouseAudit] in environment [b] completes with,
    and what it does meanwhile. *)
Definition outcome (b : Behaviour) (url : Js.jsstring) : Completion AuditResult :=
  fst (runLighthouseAudit_in b url start).

Definition events (b : Behaviour) (url : Js.jsstring) : list Event :=
  trace (snd (runLighthouseAudit_in b url start)).

(** The browser was launched and its page opened: the [try] of line 78 is
    entered. *)
Definition session_opened (b : Behaviour) : bool :=
  match on_launch b, on_newPage b with
  | Fulfilled _, Fulfilled _ => true
  | _, _ => false
  end.

(** The locals after a successful attempt (line 49). *)
Definition assigned (r : AuditResult) : Locals :=
  {| l_score := Some (score r);
     l_metaTitle := metaTitle r;
     l_metaDescription := metaDescription r |}.

(** The locals after giving up (lines 56-58). *)
Definition exhausted (v : Locals) : Locals :=
  {| l_score := Some 0%float;
     l_metaTitle := Js.or (l_metaTitle v) (Js.lit "N/A");
     l_metaDescription := Js.or (l_metaDescription v) (Js.lit "N/A") |}.

(** The locals at line 44, before the first attempt. *)
Definition fresh : Locals :=
  {| l_score := None; l_metaTitle := Js.lit ""; l_metaDescription := Js.lit "" |}.

(** The row of a URL that could not be audited. *)
Definition sentinel_row (u : Js.jsstring) : ResultRow :=
  {| url := u;
     r_score := Some 0%float;
     r_metaTitle := Js.lit "N/A";
     r_metaDescription := Js.lit "N/A" |}.

(** The row of a URL audited with result [r]. *)
Definition result_row (u : Js.jsstring) (r : AuditResult) : ResultRow :=
  {| url := u;
     r_score := Some (score r);
     r_metaTitle := metaTitle r;
     r_metaDescription := metaDescription r |}.

(** ASCII lower-casing of a code unit. *)
Definition lower (c : N) : N :=
  if ((65 <=? c) && (c <=? 90))%N then (c + 32)%N else c.

(** [s] starts with [http://] or [https://], whatever the case of the
    letters. *)
Definition starts_with_scheme (s : Js.jsstring) : bool :=
  Js.startsWith (Js.lit "http://") (map lower s)
  || Js.startsWith (Js.lit "https://") (map lower s).

(** What the loader keeps of one row. *)
Definition kept (row : CsvRow) : list Js.jsstring :=
  match row_url row with
  | Some (c :: u) => [formattedUrl (c :: u)]
  | Some [] => []
  | None => []
  end.

(** The part of a trace that belongs to one URL: it opens with the
    [Processing] line, writes nothing until its attempts are over, and ends
    with the one row of that URL. *)
Definition url_segment (u : Js.jsstring) (seg : list Event) : Prop :=
  exists body row,
    seg = ConsoleLog (Processing u) :: body ++ [Write row]
    /\ written body = []
    /\ url row = u.

(** How many of the [count] calls from the [from]-th on opened a browser
    session. *)
Fixpoint sessions (oracle : nat -> Behaviour) (from count : nat) : nat :=
  match count with
  | O => 0
  | S count' =>
      (if session_opened (oracle from) then 1 else 0)
      + sessions oracle (S from) count'
  end.

(** The state in which [process_url] leaves the run. *)
Definition after_url (oracle : nat -> Behaviour) (u : Js.jsstring) (w : World)
  : World :=
  snd (process_url oracle u w).

(** The last call of the runner made for a URL failed: its retry loop was
    left through the [break] of line 59, not the one of line 51. *)
Definition ends_exhausted (oracle : nat -> Behaviour) (u : Js.jsstring)
    (w : World) : Prop :=
  exists e, outcome (oracle (pred (calls (after_url oracle u w)))) u = Throw e.

(** ** Sample environments *)

Module Sample.

Definition example_com : Js.jsstring := Js.lit "http://example.com".

(** The page loads and Lighthouse reports 0.87. *)
Definition page_ok : Behaviour :=
  {| on_launch := Fulfilled tt;
     on_newPage := Fulfilled tt;
     on_goto := Fulfilled tt;
     on_title := Fulfilled (Js.lit "Example Domain");
     on_evalDescription := Fulfilled (Js.lit "An example");
     on_import := Fulfilled tt;
     on_lighthouse := Reports 0x1.bd70a3d70a3d7p-1%float;
     on_close := Fulfilled tt |}.

(** The page loads, its title is read, and Lighthouse never answers. *)
Definition page_hangs : Behaviour :=
  {| on_launch := Fulfilled tt;
     on_newPage := Fulfilled tt;
     on_goto := Fulfilled tt;
     on_title := Fulfilled (Js.lit "Example Domain");
     on_evalDescription := Rejected {| message := Js.lit "failed to find element" |};
     on_import := Fulfilled tt;
     on_lighthouse := StillPending;
     on_close := Fulfilled tt |}.

(** Navigation fails. *)
Definition page_unreachable : Behaviour :=
  {| on_launch := Fulfilled tt;
     on_newPage := Fulfilled tt;
     on_goto := Rejected {| message := Js.lit "net::ERR_NAME_NOT_RESOLVED" |};
     on_title := Fulfilled (Js.lit "");
     on_evalDescription := Fulfilled (Js.lit "");
     on_import := Fulfilled tt;
     on_lighthouse := StillPending;
     on_close := Fulfilled tt |}.

(** The browser starts but cannot open a page. *)
Definition page_not_opened : Behaviour :=
  {| on_launch := Fulfilled tt;
     on_newPage := Rejected {| message := Js.lit "Target closed" |};
     on_goto := Fulfilled tt;
     on_title := Fulfilled (Js.lit "");
     on_evalDescription := Fulfilled (Js.lit "");
     on_import := Fulfilled tt;
     on_lighthouse := StillPending;
     on_close := Fulfilled tt |}.

Definition always (b : Behaviour) : nat -> Behaviour := fun _ => b.

(** The first [k] calls see [b], the later ones [b']. *)
Definition first (k : nat) (b b' : Behaviour) : nat -> Behaviour :=
  fun i => if i <? k then b else b'.

(** Unreachable on the first call, hanging on the second, fine afterwards. *)
Definition unreachable_then_hangs : nat -> Behaviour :=
  fun i => match i with
           | 0 => page_unreachable
           | 1 => page_hangs
           | _ => page_ok
           end.

Definition three_rows : list CsvRow :=
  [ {| row_url := Some (Js.lit "example.com") |};
    {| row_url := Some (Js.lit "") |};
    {| row_url := Some (Js.lit "https://test.org") |} ].

End Sample.

(** ** Further readings of a trace and of an environment *)

(** The time spent in pauses, in milliseconds. *)
Fixpoint waited (t : list Event) : N :=
  match t with
  | [] => 0%N
  | Sleep ms :: t' => (ms + waited t')%N
  | _ :: t' => waited t'
  end.

(** How many times the output stream was opened or ended. *)
Fixpoint stream_ops (t : list Event) : nat :=
  match t with
  | [] => 0
  | OpenOutput :: t' => S (stream_ops t')
  | EndOutput :: t' => S (stream_ops t')
  | _ :: t' => stream_ops t'
  end.

(** Whether a browser is open after [t], given whether one was open before;
    [None] when [t] launches a browser while one is open, or closes one when
    none is. *)
Fixpoint browser_after (open : bool) (t : list Event) : option bool :=
  match t with
  | [] => Some open
  | Launch :: t' => if open then None else browser_after true t'
  | Close :: t' => if open then browser_after false t' else None
  | _ :: t' => browser_after open t'
  end.

(** The events of the page and of Lighthouse that follow the navigation. *)
Definition after_navigation (ev : Event) : bool :=
  match ev with
  | Title | EvalDescription | ImportLighthouse | CallLighthouse _ | SetTimer _ => true
  | _ => false
  end.

(** The description a call returns in environment [b] (line 86). *)
Definition description_of (b : Behaviour) : Js.jsstring :=
  match on_evalDescription b with
  | Fulfilled d => d
  | Rejected _ => Js.lit "No meta description"
  end.

(** The environment [b] with another answer to the [$eval] of line 86. *)
Definition with_description (b : Behaviour) (s : Settled Js.jsstring)
  : Behaviour :=
  {| on_launch := on_launch b;
     on_newPage := on_newPage b;
     on_goto := on_goto b;
     on_title := on_title b;
     on_evalDescription := s;
     on_import := on_import b;
     on_lighthouse := on_lighthouse b;
     on_close := on_close b |}.

(** The score of a row is a number, not [undefined]. *)
Definition has_score (row : ResultRow) : bool :=
  match r_score row with
  | Some _ => true
  | None => false
  end.

(** What [on_end] adds to the trace. *)
Definition run_trace (oracle : nat -> Behaviour) (urls : list Js.jsstring)
    (w : World) : list Event :=
  skipn (List.length (trace w)) (trace (snd (on_end oracle urls w))).

(** How many times [on_end] enters the runner. *)
Definition run_calls (oracle : nat -> Behaviour) (urls : list Js.jsstring)
    (w : World) : nat :=
  calls (snd (on_end oracle urls w)) - calls w.

(** A row is the sentinel of its URL, or the result of one of the calls
    numbered from [lo] up to, not including, [hi]. *)
Definition row_accounted (oracle : nat -> Behaviour) (lo hi : nat)
    (row : ResultRow) : Prop :=
  row = sentinel_row (url row)
  \/ exists k r,
       lo <= k < hi
       /\ outcome (oracle k) (url row) = Normal r
       /\ row = result_row (url row) r.

(** ** More sample environments *)

Module More.

(** The audit reports 0.87, and closing the browser then fails. *)
Definition page_close_fails : Behaviour :=
  {| on_launch := Fulfilled tt;
     on_newPage := Fulfilled tt;
     on_goto := Fulfilled tt;
     on_title := Fulfilled (Js.lit "Example Domain");
     on_evalDescription := Fulfilled (Js.lit "An example");
     on_import := Fulfilled tt;
     on_lighthouse := Reports 0x1.bd70a3d70a3d7p-1%float;
     on_close := Rejected {| message := Js.lit "Protocol error: Connection closed" |} |}.

Definition two_urls : list Js.jsstring :=
  [Js.lit "http://example.com"; Js.lit "https://test.org"].

End More.

(** ** The episode of one URL *)

(** What attempt [n] on [u], made as the [k]-th call of the run, adds to the
    trace (lines 48-55): its announcement, what the runner does, and the line
    logged for how it ended, followed by the "Skipping" line when the loop
    gives up on it. *)
Definition attempt_events (oracle : nat -> Behaviour) (u : Js.jsstring)
    (n k : nat) : list Event :=
  ConsoleLog (AttemptFor n u)
  :: events (oracle k) u
  ++ match outcome (oracle k) u with
     | Normal r => [ConsoleLog (SuccessfullyProcessed u (score r))]
     | Throw e =>
         ConsoleError (AttemptFailed n u (message e))
         :: (if gives_up n e then [ConsoleError (Skipping u)] else [])
     end.

(** The [m] consecutive attempts numbered from [n], made as the calls
    numbered from [k]. *)
Fixpoint attempts (oracle : nat -> Behaviour) (u : Js.jsstring) (m n k : nat)
  : list (list Event) :=
  match m with
  | O => []
  | S m' => attempt_events oracle u n k :: attempts oracle u m' (S n) (S k)
  end.

(** The parts one after the other, with [sep] between two of them and
    neither before the first nor after the last. *)
Fixpoint separated_by (sep : Event) (parts : list (list Event)) : list Event :=
  match parts with
  | [] => []
  | p :: rest =>
      match rest with
      | [] => p
      | _ :: _ => p ++ sep :: separated_by sep rest
      end
  end.

(** The part of a trace that belongs to URL [u] when its attempts are the
    calls numbered from [lo] up to, not including, [hi].  After the
    [Processing] line and the courtesy pause come between one and three
    attempts with a 3-second pause between two of them; each attempt calls
    [puppeteer.launch] once, never pauses and writes nothing.  Every attempt
    but the last failed without the loop giving up.  The last one reached a
    terminal state: it succeeded, and the row written is its result, or it
    failed and the loop gave up, and the row written is the sentinel.  The
    row is the last event. *)
Definition url_episode (oracle : nat -> Behaviour) (u : Js.jsstring)
    (lo hi : nat) (seg : list Event) : Prop :=
  exists m row,
    1 <= m <= maxRetries
    /\ hi = lo + m
    /\ seg = ConsoleLog (Processing u) :: Sleep 3000
             :: separated_by (Sleep 3000) (attempts oracle u m 1 lo)
             ++ [Write row]
    /\ Forall (fun a => launches a = 1 /\ pauses a = 0 /\ written a = [])
         (attempts oracle u m 1 lo)
    /\ (forall i, i < m - 1 ->
         exists e,
           outcome (oracle (lo + i)) u = Throw e /\ gives_up (1 + i) e = false)
    /\ match outcome (oracle (lo + (m - 1))) u with
       | Normal r => row = result_row u r
       | Throw e => gives_up m e = true /\ row = sentinel_row u
       end.

(** Episodes one after the other: the calls of each URL start where those of
    the URL before it stopped. *)
Inductive episodes (oracle : nat -> Behaviour)
  : nat -> list Js.jsstring -> list (list Event) -> nat -> Prop :=
| episodes_nil (c : nat) : episodes oracle c [] [] c
| episodes_cons (u : Js.jsstring) (urls : list Js.jsstring)
    (seg : list Event) (segs : list (list Event)) (lo mid hi : nat) :
    url_episode oracle u lo mid seg ->
    episodes oracle mid urls segs hi ->
    episodes oracle lo (u :: urls) (seg :: segs) hi.

(** The session of a call opened and [browser.close()] resolved. *)
Definition session_clean (b : Behaviour) : bool :=
  session_opened b
  && match on_close b with
     | Fulfilled _ => true
     | Rejected _ => false
     end.

(** ** Environments that change during a run *)

Module Mixed.

(** The first call cannot reach the page, the second gets a report, and from
    the third on no page can be opened. *)
Definition unreachable_ok_then_no_page : nat -> Behaviour :=
  fun i => match i with
           | 0 => Sample.page_unreachable
           | 1 => Sample.page_ok
           | _ => Sample.page_not_opened
           end.

(** The first three calls cannot reach the page or get a report in turn; from
    the fourth on no page can be opened. *)
Definition three_calls_then_no_page : nat -> Behaviour :=
  fun i => match i with
           | 0 => Sample.page_unreachable
           | 1 => Sample.page_ok
           | 2 => Sample.page_ok
           | _ => Sample.page_not_opened
           end.

End Mixed.

(** * Properties *)

(** ** The monad *)

(** A computation that neither reads the state nor enters
    [runLighthouseAudit]: it completes with [c] after doing [t]. *)
Definition does {A} (m : M A) (c : Completion A) (t : list Event) : Prop :=
  forall w, m w = (c, {| calls := calls w; trace := trace w ++ t |}).

(** A computation of that kind, however it completes. *)
Definition runs {A} (m : M A) : Prop := exists c t, does m c t.

Lemma does_ret {A} (a : A) : does (ret a) (Normal a) [].
Proof. intros [k t]; unfold ret; simpl; now rewrite app_nil_r. Qed.

Lemma does_throw {A} (e : Error) : does (@throw A e) (Throw e) [].
Proof. intros [k t]; unfold throw; simpl; now rewrite app_nil_r. Qed.

Lemma does_emit (ev : Event) : does (emit ev) (Normal tt) [ev].
Proof. intros w; reflexivity. Qed.

Lemma does_bind_normal {A B} (m : M A) (f : A -> M B) a t c t' :
  does m (Normal a) t -> does (f a) c t' -> does (bind m f) c (t ++ t').
Proof.
  intros Hm Hf w; unfold bind; rewrite Hm, Hf; simpl; now rewrite app_assoc.
Qed.

Lemma does_bind_throw {A B} (m : M A) (f : A -> M B) e t :
  does m (Throw e) t -> does (bind m f) (Throw e) t.
Proof. intros Hm w; unfold bind; now rewrite Hm. Qed.

Lemma does_await_fulfilled {A} ev (a : A) :
  does (await ev (Fulfilled a)) (Normal a) [ev].
Proof.
  unfold await. change [ev] with ([ev] ++ @nil Event).
  eapply does_bind_normal; [ apply does_emit | apply does_ret ].
Qed.

Lemma does_await_rejected {A} ev e :
  does (await ev (@Rejected A e)) (Throw e) [ev].
Proof.
  unfold await. change [ev] with ([ev] ++ @nil Event).
  eapply does_bind_normal; [ apply does_emit | apply does_throw ].
Qed.

Lemma does_try_catch_normal {A} (m : M A) h a t :
  does m (Normal a) t -> does (try_catch m h) (Normal a) t.
Proof. intros Hm w; unfold try_catch; now rewrite Hm. Qed.

Lemma does_try_catch_throw {A} (m : M A) h e t c t' :
  does m (Throw e) t -> does (h e) c t' -> does (try_catch m h) c (t ++ t').
Proof.
  intros Hm Hh w; unfold try_catch; rewrite Hm, Hh; simpl; now rewrite app_assoc.
Qed.

Lemma does_try_finally_normal {A} (m : M A) fin c t u t' :
  does m c t -> does fin (Normal u) t' -> does (try_finally m fin) c (t ++ t').
Proof.
  intros Hm Hf w; unfold try_finally; rewrite Hm, Hf; simpl; now rewrite app_assoc.
Qed.

Lemma does_try_finally_throw {A} (m : M A) fin c t e t' :
  does m c t -> does fin (Throw e) t' ->
  does (try_finally m fin) (Throw e) (t ++ t').
Proof.
  intros Hm Hf w; unfold try_finally; rewrite Hm, Hf; simpl; now rewrite app_assoc.
Qed.

Lemma runs_ret {A} (a : A) : runs (ret a).
Proof. do 2 eexists. apply does_ret. Qed.

Lemma runs_throw {A} (e : Error) : runs (@throw A e).
Proof. do 2 eexists. apply does_throw. Qed.

Lemma runs_emit (ev : Event) : runs (emit ev).
Proof. do 2 eexists. apply does_emit. Qed.

Lemma runs_await {A} ev (s : Settled A) : runs (await ev s).
Proof.
  destruct s; do 2 eexists;
    [apply does_await_fulfilled | apply does_await_rejected].
Qed.

Lemma runs_bind {A B} (m : M A) (f : A -> M B) :
  runs m -> (forall a, runs (f a)) -> runs (bind m f).
Proof.
  intros ([a|e] & t & Hm) Hf.
  - destruct (Hf a) as (c & t' & Hfa). do 2 eexists.
    eapply does_bind_normal; eassumption.
  - do 2 eexists. eapply does_bind_throw; eassumption.
Qed.

Lemma runs_try_catch {A} (m : M A) (h : Error -> M A) :
  runs m -> (forall e, runs (h e)) -> runs (try_catch m h).
Proof.
  intros ([a|e] & t & Hm) Hh.
  - do 2 eexists. eapply does_try_catch_normal; eassumption.
  - destruct (Hh e) as (c & t' & Hhe). do 2 eexists.
    eapply does_try_catch_throw; eassumption.
Qed.

Lemma runs_try_finally {A} (m : M A) (fin : M unit) :
  runs m -> runs fin -> runs (try_finally m fin).
Proof.
  intros (c & t & Hm) ([[]|e] & t' & Hf); do 2 eexists.
  - eapply does_try_finally_normal; eassumption.
  - eapply does_try_finally_throw; eassumption.
Qed.

(** Walks through a computation built from the combinators above. *)
Ltac walk :=
  repeat first
    [ apply runs_ret
    | apply runs_throw
    | apply runs_emit
    | apply runs_await
    | apply runs_bind; [ | intros ? ]
    | apply runs_try_catch; [ | intros ? ]
    | apply runs_try_finally ].

(** ** The audit runner *)

(** A call of the runner always completes, touching the state only by
    appending to the trace. *)
Lemma runLighthouseAudit_in_does (b : Behaviour) (u : Js.jsstring) :
  exists c t, does (runLighthouseAudit_in b u) c t.
Proof.
  change (runs (runLighthouseAudit_in b u)).
  unfold runLighthouseAudit_in. walk. destruct (on_lighthouse b); walk.
Qed.

Lemma runLighthouseAudit_in_run (b : Behaviour) (u : Js.jsstring) (w : World) :
  runLighthouseAudit_in b u w
  = (outcome b u, {| calls := calls w; trace := trace w ++ events b u |}).
Proof.
  destruct (runLighthouseAudit_in_does b u) as (c & t & H).
  unfold outcome, events. rewrite (H start), (H w). reflexivity.
Qed.

Lemma runLighthouseAudit_run oracle (u : Js.jsstring) (w : World) :
  runLighthouseAudit oracle u w
  = (outcome (oracle (calls w)) u,
     {| calls := S (calls w); trace := trace w ++ events (oracle (calls w)) u |}).
Proof.
  unfold runLighthouseAudit, bind, enter.
  rewrite runLighthouseAudit_in_run. reflexivity.
Qed.

(** Splits an environment into the ways each of its promises can settle. *)
Ltac each_behaviour b :=
  let la := fresh "la" in let np := fresh "np" in let go := fresh "go" in
  let ti := fresh "ti" in let ev := fresh "ev" in let im := fresh "im" in
  let lh := fresh "lh" in let cl := fresh "cl" in
  destruct b as [la np go ti ev im lh cl];
  destruct la, np, go, ti, ev, im, lh, cl.

Lemma events_written (b : Behaviour) (u : Js.jsstring) : written (events b u) = [].
Proof. each_behaviour b; reflexivity. Qed.

Lemma events_launches (b : Behaviour) (u : Js.jsstring) : launches (events b u) = 1.
Proof. each_behaviour b; reflexivity. Qed.

Lemma events_pauses (b : Behaviour) (u : Js.jsstring) : pauses (events b u) = 0.
Proof. each_behaviour b; reflexivity. Qed.

Lemma events_teardowns (b : Behaviour) (u : Js.jsstring) :
  teardowns (events b u) = if session_opened b then 1 else 0.
Proof. each_behaviour b; reflexivity. Qed.

Lemma events_close_last (b : Behaviour) (u : Js.jsstring) :
  session_opened b = true ->
  exists t, events b u = t ++ [Close] /\ teardowns t = 0.
Proof.
  intros H. exists (removelast (events b u)).
  revert H. each_behaviour b; intros H; try discriminate H; split; reflexivity.
Qed.

(** ** The retry loop *)

Lemma Js_eqb_eq (a b : Js.jsstring) : Js.eqb a b = true <-> a = b.
Proof.
  revert b. induction a as [|x a IH]; intros [|y b]; simpl; split;
    try congruence; try discriminate.
  - intros H. apply andb_true_iff in H. destruct H as [Hx Hr].
    apply N.eqb_eq in Hx. apply IH in Hr. congruence.
  - intros H. inversion H; subst. apply andb_true_iff. split.
    + apply N.eqb_refl.
    + now apply IH.
Qed.

Lemma gives_up_iff (n : nat) (e : Error) :
  gives_up n e = true
  <-> n = 3 \/ (n = 2 /\ message e = timeout_message).
Proof.
  unfold gives_up, maxRetries.
  rewrite orb_true_iff, andb_true_iff, !Nat.eqb_eq, Js_eqb_eq. tauto.
Qed.

Section Attempts.

Variable oracle : nat -> Behaviour.
Variable u : Js.jsstring.

(** The environment of the call entered from state [w]. *)
Let env (w : World) : Behaviour := oracle (calls w).

Lemma attempt_body_success n v w r :
  outcome (env w) u = Normal r ->
  attempt_body oracle u n v w
  = (Normal (Break (assigned r)),
     {| calls := S (calls w);
        trace := trace w ++ ConsoleLog (AttemptFor n u) :: events (env w) u
                         ++ [ConsoleLog (SuccessfullyProcessed u (score r))] |}).
Proof.
  intros H. unfold attempt_body, try_catch, bind, emit; simpl.
  rewrite runLighthouseAudit_run; simpl. fold (env w). rewrite H. unfold ret.
  simpl. rewrite <- !app_assoc. reflexivity.
Qed.

Lemma attempt_body_gives_up n v w e :
  outcome (env w) u = Throw e ->
  gives_up n e = true ->
  attempt_body oracle u n v w
  = (Normal (Break (exhausted v)),
     {| calls := S (calls w);
        trace := trace w ++ ConsoleLog (AttemptFor n u) :: events (env w) u
                         ++ [ConsoleError (AttemptFailed n u (message e));
                             ConsoleError (Skipping u)] |}).
Proof.
  intros H G. unfold attempt_body, try_catch, bind, emit; simpl.
  rewrite runLighthouseAudit_run; simpl. fold (env w). rewrite H, G. unfold ret.
  simpl. rewrite <- !app_assoc. reflexivity.
Qed.

Lemma attempt_body_retry n v w e :
  outcome (env w) u = Throw e ->
  gives_up n e = false ->
  attempt_body oracle u n v w
  = (Normal (Continue v),
     {| calls := S (calls w);
        trace := trace w ++ ConsoleLog (AttemptFor n u) :: events (env w) u
                         ++ [ConsoleError (AttemptFailed n u (message e));
                             Sleep 3000] |}).
Proof.
  intros H G. unfold attempt_body, try_catch, bind, emit; simpl.
  rewrite runLighthouseAudit_run; simpl. fold (env w). rewrite H, G. unfold ret.
  simpl. rewrite <- !app_assoc. reflexivity.
Qed.

(** One turn of the loop. *)
Lemma retry_loop_S k n v w :
  retry_loop oracle u (S k) n v w
  = match attempt_body oracle u n v w with
    | (Normal (Break v'), w') => (Normal v', w')
    | (Normal (Continue v'), w') => retry_loop oracle u k (S n) v' w'
    | (Throw e, w') => (Throw e, w')
    end.
Proof.
  simpl. unfold bind. destruct (attempt_body oracle u n v w) as [[[v'|v']|e] w'];
    reflexivity.
Qed.

End Attempts.

(** ** Traces *)

Lemma written_app (a b : list Event) : written (a ++ b) = written a ++ written b.
Proof.
  induction a as [|ev a IH]; simpl; [reflexivity|].
  destruct ev; simpl; rewrite IH; reflexivity.
Qed.

Lemma teardowns_app (a b : list Event) :
  teardowns (a ++ b) = teardowns a + teardowns b.
Proof.
  induction a as [|ev a IH]; simpl; [reflexivity|].
  destruct ev; simpl; rewrite IH; reflexivity.
Qed.

Lemma launches_app (a b : list Event) :
  launches (a ++ b) = launches a + launches b.
Proof.
  induction a as [|ev a IH]; simpl; [reflexivity|].
  destruct ev; simpl; rewrite IH; reflexivity.
Qed.

Lemma pauses_app (a b : list Event) : pauses (a ++ b) = pauses a + pauses b.
Proof.
  induction a as [|ev a IH]; simpl; [reflexivity|].
  destruct ev; simpl; rewrite IH; reflexivity.
Qed.

Lemma sessions_add oracle from m n :
  sessions oracle from (m + n)
  = sessions oracle from m + sessions oracle (from + m) n.
Proof.
  revert from. induction m as [|m IH]; intros from; simpl.
  - now rewrite Nat.add_0_r.
  - rewrite IH. replace (S from + m) with (from + S m) by lia. lia.
Qed.

Lemma sessions_all oracle from count :
  (forall k, session_opened (oracle k) = true) ->
  sessions oracle from count = count.
Proof.
  intros H. revert from. induction count as [|c IH]; intros from; simpl.
  - reflexivity.
  - now rewrite H, IH.
Qed.

(** ** How the retry loop ends *)

Section Loop.

Variable oracle : nat -> Behaviour.
Variable u : Js.jsstring.

(** The loop left after a single call of the runner. *)
Ltac one_call Ho :=
  do 3 eexists; split; [reflexivity|]; cbn [calls trace];
  split; [reflexivity|];
  rewrite Nat.sub_succ_l, Nat.sub_diag by lia;
  cbn [pred written launches teardowns sessions];
  rewrite Ho, written_app, events_written, launches_app, events_launches,
    teardowns_app, events_teardowns;
  cbn [written launches teardowns app];
  repeat split; try reflexivity; try lia.

(** From any attempt up to the last one the loop leaves through a [break]:
    it returns locals [v'] after [calls w' - calls w] calls of the runner,
    the last of which decides what [v'] is. *)
Lemma retry_loop_ends k : forall n v w,
  n + k = maxRetries ->
  exists v' w' t,
    retry_loop oracle u (S k) n v w = (Normal v', w')
    /\ trace w' = trace w ++ t
    /\ written t = []
    /\ calls w < calls w' <= calls w + S k
    /\ launches t = calls w' - calls w
    /\ teardowns t = sessions oracle (calls w) (calls w' - calls w)
    /\ match outcome (oracle (pred (calls w'))) u with
       | Normal r => v' = assigned r
       | Throw _ => v' = exhausted v
       end.
Proof.
  induction k as [|k IH]; intros n v w Hn; rewrite retry_loop_S;
    destruct (outcome (oracle (calls w)) u) as [r|e] eqn:Ho.
  - rewrite (attempt_body_success oracle u n v w Ho). one_call Ho.
  - assert (G : gives_up n e = true)
      by (apply gives_up_iff; unfold maxRetries in Hn; lia).
    rewrite (attempt_body_gives_up oracle u n v w Ho G). one_call Ho.
  - rewrite (attempt_body_success oracle u n v w Ho). one_call Ho.
  - destruct (gives_up n e) eqn:G.
    + rewrite (attempt_body_gives_up oracle u n v w Ho G). one_call Ho.
    + rewrite (attempt_body_retry oracle u n v w Ho G).
      match goal with
      | |- context [retry_loop _ _ _ _ _ ?w1] => set (w1' := w1)
      end.
      destruct (IH (S n) v w1' ltac:(lia))
        as (v' & w' & t & Hrun & Ht & Hw & Hc & Hl & Htd & Hv).
      subst w1'. cbn [calls trace] in Ht, Hc, Hl, Htd.
      exists v', w'. eexists. split; [exact Hrun|].
      split; [rewrite Ht, <- app_assoc; reflexivity|].
      rewrite written_app, launches_app, teardowns_app, Hw, Hl, Htd.
      replace (calls w' - calls w) with (1 + (calls w' - S (calls w))) by lia.
      rewrite sessions_add.
      replace (calls w + 1) with (S (calls w)) by lia.
      cbn [written launches teardowns sessions].
      rewrite written_app, events_written, launches_app,
        events_launches, teardowns_app, events_teardowns.
      cbn [written launches teardowns app].
      repeat split; try reflexivity; try lia. exact Hv.
Qed.

End Loop.

(** ** One URL, then all of them *)

Section Urls.

Variable oracle : nat -> Behaviour.

(** [process_url] around its retry loop. *)
Lemma process_url_run u w :
  process_url oracle u w
  = match retry_loop oracle u maxRetries 1 fresh
            {| calls := calls w;
               trace := trace w ++ [ConsoleLog (Processing u); Sleep 3000] |}
    with
    | (Normal v, w1) =>
        (Normal tt,
         {| calls := calls w1;
            trace := trace w1
                     ++ [Write {| url := u;
                                  r_score := l_score v;
                                  r_metaTitle := l_metaTitle v;
                                  r_metaDescription := l_metaDescription v |}] |})
    | (Throw e, w1) => (Throw e, w1)
    end.
Proof.
  unfold process_url, bind, emit. cbn [calls trace].
  rewrite <- app_assoc. reflexivity.
Qed.

(** Every URL gets its row, whatever the outside world does. *)
Lemma process_url_ends u w :
  exists v w' t,
    process_url oracle u w = (Normal tt, w')
    /\ trace w' = trace w ++ ConsoleLog (Processing u) :: Sleep 3000 :: t
                          ++ [Write {| url := u;
                                       r_score := l_score v;
                                       r_metaTitle := l_metaTitle v;
                                       r_metaDescription := l_metaDescription v |}]
    /\ written t = []
    /\ calls w < calls w' <= calls w + 3
    /\ launches t = calls w' - calls w
    /\ teardowns t = sessions oracle (calls w) (calls w' - calls w)
    /\ match outcome (oracle (pred (calls w'))) u with
       | Normal r => v = assigned r
       | Throw _ => v = exhausted fresh
       end.
Proof.
  rewrite process_url_run.
  destruct (@retry_loop_ends oracle u 2 1 fresh
              {| calls := calls w;
                 trace := trace w ++ [ConsoleLog (Processing u); Sleep 3000] |}
              eq_refl)
    as (v & w1 & t & Hrun & Ht & Hw & Hc & Hl & Htd & Hv).
  change maxRetries with 3. rewrite Hrun. cbn [calls trace] in *.
  exists v. eexists. exists t. split; [reflexivity|]. cbn [calls trace].
  split; [rewrite Ht, <- !app_assoc; reflexivity|].
  repeat split; try assumption; lia.
Qed.

Lemma for_each_ends urls : forall w,
  exists w' segs,
    for_each oracle urls w = (Normal tt, w')
    /\ trace w' = trace w ++ List.concat segs
    /\ Forall2 url_segment urls segs.
Proof.
  induction urls as [|u urls IH]; intros w.
  - exists w, []. simpl. unfold ret. rewrite app_nil_r. auto.
  - destruct (process_url_ends u w)
      as (v & w1 & t & Hrun & Ht & Hw & _).
    destruct (IH w1) as (w' & segs & Hrest & Ht' & Hsegs).
    exists w'. eexists (_ :: segs).
    split; [|split].
    + cbn [for_each]. unfold bind. rewrite Hrun. exact Hrest.
    + rewrite Ht', Ht. cbn [List.concat]. rewrite <- app_assoc. reflexivity.
    + constructor; [|exact Hsegs].
      exists (Sleep 3000 :: t). eexists. split; [reflexivity|].
      split; [exact Hw | reflexivity].
Qed.

Lemma written_segments urls : forall segs,
  Forall2 url_segment urls segs ->
  map url (written (List.concat segs)) = urls.
Proof.
  induction urls as [|u urls IH]; intros segs H; inversion H; subst.
  - reflexivity.
  - match goal with
    | Hs : url_segment _ _ |- _ => destruct Hs as (body & row & -> & Hb & Hu)
    end.
    cbn [List.concat]. rewrite written_app. cbn [written].
    rewrite written_app, Hb. cbn [written app map].
    rewrite Hu. f_equal. now apply IH.
Qed.

End Urls.

(** ** The ways through the retry loop of one URL *)

Lemma gives_up_first (e : Error) : gives_up 1 e = false.
Proof. reflexivity. Qed.

Lemma gives_up_third (e : Error) : gives_up 3 e = true.
Proof. reflexivity. Qed.

Lemma gives_up_second (e : Error) :
  gives_up 2 e = true <-> message e = timeout_message.
Proof. rewrite gives_up_iff. intuition discriminate. Qed.

Lemma gives_up_second_not (e : Error) :
  message e <> timeout_message -> gives_up 2 e = false.
Proof.
  intros H. destruct (gives_up 2 e) eqn:G; [|reflexivity].
  apply gives_up_second in G. contradiction.
Qed.

Section Paths.

Variable oracle : nat -> Behaviour.
Variable u : Js.jsstring.
Variable w : World.

(** One turn of the loop, by how its call of the runner ends. *)
Ltac succeed H :=
  rewrite retry_loop_S;
  match goal with
  | |- context [attempt_body ?o ?x ?n ?v ?w0] =>
      rewrite (@attempt_body_success o x n v w0 _ H)
  end.
Ltac abandon H G :=
  rewrite retry_loop_S;
  match goal with
  | |- context [attempt_body ?o ?x ?n ?v ?w0] =>
      rewrite (@attempt_body_gives_up o x n v w0 _ H G)
  end.
Ltac retry H G :=
  rewrite retry_loop_S;
  match goal with
  | |- context [attempt_body ?o ?x ?n ?v ?w0] =>
      rewrite (@attempt_body_retry o x n v w0 _ H G)
  end.

(** Closes the side conditions on the events between two states. *)
Ltac tally :=
  cbn [written launches pauses teardowns app];
  rewrite ?written_app, ?launches_app, ?pauses_app, ?events_written,
    ?events_launches, ?events_pauses;
  cbn [written launches pauses app Nat.add];
  rewrite ?written_app, ?launches_app, ?pauses_app, ?events_written,
    ?events_launches, ?events_pauses;
  cbn [written launches pauses app Nat.add];
  rewrite ?written_app, ?launches_app, ?pauses_app, ?events_written,
    ?events_launches, ?events_pauses;
  cbn [written launches pauses app Nat.add];
  try reflexivity.

(** What was appended to the trace [tw] to get [l]. *)
Ltac delta tw l :=
  match l with
  | tw ++ ?a => constr:(a)
  | ?l' ++ ?a => let d := delta tw l' in constr:(d ++ a)
  end.

Ltac finish_path :=
  match goal with
  | |- exists t, (_, {| calls := _; trace := ?l ++ [_] |}) = _ /\ _ =>
      let d := delta (trace w) l in exists d
  end;
  split; [ rewrite <- !app_assoc; reflexivity | split; tally ].

(** Attempt 1 succeeds. *)
Lemma path_success_at_1 r :
  outcome (oracle (calls w)) u = Normal r ->
  exists t,
    process_url oracle u w
    = (Normal tt, {| calls := 1 + calls w;
                     trace := trace w ++ t ++ [Write (result_row u r)] |})
    /\ written t = [] /\ launches t = 1.
Proof.
  intros H1. rewrite process_url_run. change maxRetries with 3.
  succeed H1.
  cbn [calls trace assigned l_score l_metaTitle l_metaDescription].
  finish_path.
Qed.

(** Attempt 1 fails, attempt 2 times out. *)
Lemma path_exhausted_at_2 e1 e2 :
  outcome (oracle (calls w)) u = Throw e1 ->
  outcome (oracle (1 + calls w)) u = Throw e2 ->
  message e2 = timeout_message ->
  exists t,
    process_url oracle u w
    = (Normal tt, {| calls := 2 + calls w;
                     trace := trace w ++ t ++ [Write (sentinel_row u)] |})
    /\ written t = [] /\ launches t = 2.
Proof.
  intros H1 H2 Hm. apply gives_up_second in Hm.
  rewrite process_url_run. change maxRetries with 3.
  retry H1 (gives_up_first e1).
  abandon H2 Hm.
  cbn [calls trace exhausted fresh l_score l_metaTitle l_metaDescription].
  finish_path.
Qed.

(** Attempt 1 fails, attempt 2 fails otherwise than by the audit timer,
    attempt 3 fails. *)
Lemma path_exhausted_at_3 e1 e2 e3 :
  outcome (oracle (calls w)) u = Throw e1 ->
  outcome (oracle (1 + calls w)) u = Throw e2 ->
  message e2 <> timeout_message ->
  outcome (oracle (2 + calls w)) u = Throw e3 ->
  exists t,
    process_url oracle u w
    = (Normal tt, {| calls := 3 + calls w;
                     trace := trace w ++ t ++ [Write (sentinel_row u)] |})
    /\ written t = [] /\ launches t = 3.
Proof.
  intros H1 H2 Hm H3. apply gives_up_second_not in Hm.
  rewrite process_url_run. change maxRetries with 3.
  retry H1 (gives_up_first e1).
  retry H2 Hm.
  abandon H3 (gives_up_third e3).
  cbn [calls trace exhausted fresh l_score l_metaTitle l_metaDescription].
  finish_path.
Qed.

(** Attempt 1 fails, attempt 2 fails otherwise than by the audit timer,
    attempt 3 succeeds. *)
Lemma path_success_at_3 e1 e2 r :
  outcome (oracle (calls w)) u = Throw e1 ->
  outcome (oracle (1 + calls w)) u = Throw e2 ->
  message e2 <> timeout_message ->
  outcome (oracle (2 + calls w)) u = Normal r ->
  exists t,
    process_url oracle u w
    = (Normal tt, {| calls := 3 + calls w;
                     trace := trace w ++ t ++ [Write (result_row u r)] |})
    /\ written t = [] /\ launches t = 3.
Proof.
  intros H1 H2 Hm H3. apply gives_up_second_not in Hm.
  rewrite process_url_run. change maxRetries with 3.
  retry H1 (gives_up_first e1).
  retry H2 Hm.
  succeed H3.
  cbn [calls trace assigned l_score l_metaTitle l_metaDescription].
  finish_path.
Qed.

End Paths.

(** ** The loader *)

Lemma trimStart_spec (s : Js.jsstring) :
  exists l,
    s = l ++ Js.trimStart s
    /\ forallb Js.is_white l = true
    /\ match Js.trimStart s with
       | c :: _ => Js.is_white c = false
       | [] => True
       end.
Proof.
  induction s as [|c s (l & Hs & Hl & Hhd)]; simpl.
  - exists []. auto.
  - destruct (Js.is_white c) eqn:Hc.
    + exists (c :: l). simpl. rewrite Hc, Hl. repeat split; auto. congruence.
    + exists []. auto.
Qed.

(** [trim] removes a run of white space at each end, all of it. *)
Lemma trim_spec (s : Js.jsstring) :
  exists l r,
    s = l ++ Js.trim s ++ r
    /\ forallb Js.is_white l = true
    /\ forallb Js.is_white r = true
    /\ match Js.trim s with
       | c :: _ => Js.is_white c = false
       | [] => True
       end
    /\ match rev (Js.trim s) with
       | c :: _ => Js.is_white c = false
       | [] => True
       end.
Proof.
  unfold Js.trim, Js.trimEnd.
  destruct (trimStart_spec s) as (l & Hs & Hl & Hhd).
  destruct (trimStart_spec (rev (Js.trimStart s))) as (r & Hr & Hrw & Hlast).
  exists l, (rev r). rewrite rev_involutive.
  assert (Hmid : Js.trimStart s
                 = rev (Js.trimStart (rev (Js.trimStart s))) ++ rev r).
  { rewrite <- rev_app_distr, <- Hr, rev_involutive. reflexivity. }
  repeat split.
  - rewrite <- Hmid. exact Hs.
  - exact Hl.
  - rewrite forallb_forall in *. intros x Hx. apply Hrw. now apply in_rev.
  - destruct (Js.trimStart (rev (Js.trimStart s))) as [|c m] eqn:Hm.
    + exact I.
    + (* the first kept unit is the first unit of [trimStart s] *)
      rewrite Hmid in Hhd. simpl in *.
      destruct (rev m) as [|c' m'] eqn:Hrev; simpl in *; assumption.
  - exact Hlast.
Qed.

Lemma letter_i_lower (l : ascii) (c : N) :
  (97 <= N_of_ascii l <= 122)%N ->
  Js.letter_i l c = N.eqb (N_of_ascii l) (lower c).
Proof.
  intros Hl. unfold Js.letter_i, lower.
  destruct (N.leb_spec 65 c), (N.leb_spec c 90); simpl;
    destruct (N.eqb_spec c (N_of_ascii l)),
      (N.eqb_spec c (N_of_ascii l - 32)); simpl;
    symmetry; try (apply N.eqb_eq; lia); apply N.eqb_neq; lia.
Qed.

Lemma mark_lower (p c : N) :
  (p < 65)%N -> N.eqb p c = N.eqb p (lower c).
Proof.
  intros Hp. unfold lower.
  destruct (N.leb_spec 65 c), (N.leb_spec c 90); simpl; try reflexivity.
  destruct (N.eqb_spec p c), (N.eqb_spec p (c + 32)); try reflexivity; lia.
Qed.

(** The test of line 22 is a case-blind prefix test. *)
Lemma has_scheme_spec (s : Js.jsstring) : has_scheme s = starts_with_scheme s.
Proof.
  unfold has_scheme, starts_with_scheme.
  change (Js.lit "://") with [58; 47; 47]%N.
  change (Js.lit "http://") with [104; 116; 116; 112; 58; 47; 47]%N.
  change (Js.lit "https://") with [104; 116; 116; 112; 115; 58; 47; 47]%N.
  destruct s as [|c1 [|c2 [|c3 [|c4 rest]]]]; cbn [Js.startsWith map];
    rewrite ?andb_false_r; try reflexivity.
  rewrite !letter_i_lower by (cbn; lia).
  change (N_of_ascii "h") with 104%N. change (N_of_ascii "t") with 116%N.
  change (N_of_ascii "p") with 112%N.
  destruct (N.eqb 104 (lower c1)); cbn [andb orb]; [|reflexivity].
  destruct (N.eqb 116 (lower c2)); cbn [andb orb]; [|reflexivity].
  destruct (N.eqb 116 (lower c3)); cbn [andb orb]; [|reflexivity].
  destruct (N.eqb 112 (lower c4)); cbn [andb orb]; [|reflexivity].
  destruct rest as [|c5 [|c6 [|c7 [|c8 rest]]]]; cbn [Js.startsWith map];
    rewrite ?letter_i_lower by (cbn; lia);
    change (N_of_ascii "s") with 115%N;
    rewrite <- ?(@mark_lower 58), <- ?(@mark_lower 47) by lia;
    rewrite ?andb_false_r, ?orb_false_r, ?andb_true_r; reflexivity.
Qed.

Lemma on_data_kept (urls : list Js.jsstring) (row : CsvRow) :
  on_data urls row = urls ++ kept row.
Proof.
  unfold on_data, kept. destruct (row_url row) as [[|c u]|]; simpl;
    now rewrite ?app_nil_r.
Qed.

Lemma fold_on_data (rows : list CsvRow) : forall urls,
  fold_left on_data rows urls = urls ++ flat_map kept rows.
Proof.
  induction rows as [|row rows IH]; intros urls; simpl.
  - now rewrite app_nil_r.
  - rewrite IH, on_data_kept, <- app_assoc. reflexivity.
Qed.

(** * The claims *)

(** C1.  In the retry loop of a URL, a failed attempt [n] (1 to 3) ends the
    loop with the exhausted locals if and only if [n] is 3, or [n] is 2 and
    the message of the failure is exactly "Lighthouse audit timed out"; no
    pause is taken and the runner is not called again.  On any other failure
    the loop pauses 3 seconds, leaves the locals as they were and runs attempt
    [n + 1].  A successful attempt ends the loop at once with the locals the
    runner returned, without a pause. *)
Theorem retry_transitions oracle (u : Js.jsstring) (n : nat) (v : Locals) (w : World) :
  1 <= n <= maxRetries ->
  match outcome (oracle (calls w)) u with
  | Throw e =>
      let last := n = 3 \/ (n = 2 /\ message e = timeout_message) in
      ((exists w', attempt_body oracle u n v w = (Normal (Break (exhausted v)), w'))
       <-> last)
      /\ (last ->
          exists t,
            retry_loop oracle u (maxRetries + 1 - n) n v w
            = (Normal (exhausted v),
               {| calls := S (calls w); trace := trace w ++ t |})
            /\ pauses t = 0)
      /\ (~ last ->
          exists t w1,
            w1 = {| calls := S (calls w); trace := trace w ++ t ++ [Sleep 3000] |}
            /\ pauses t = 0
            /\ attempt_body oracle u n v w = (Normal (Continue v), w1)
            /\ retry_loop oracle u (maxRetries + 1 - n) n v w
               = match attempt_body oracle u (S n) v w1 with
                 | (Normal (Break v'), w') => (Normal v', w')
                 | (Normal (Continue v'), w') =>
                     retry_loop oracle u (maxRetries - S n) (S (S n)) v' w'
                 | (Throw e', w') => (Throw e', w')
                 end)
  | Normal r =>
      exists t,
        retry_loop oracle u (maxRetries + 1 - n) n v w
        = (Normal (assigned r),
           {| calls := S (calls w); trace := trace w ++ t |})
        /\ pauses t = 0
  end.
Proof.
  intros Hn. unfold maxRetries in *.
  destruct (outcome (oracle (calls w)) u) as [r|e] eqn:Ho.
  - (* success *)
    replace (3 + 1 - n) with (S (3 - n)) by lia.
    rewrite retry_loop_S, (@attempt_body_success oracle u n v w r Ho).
    eexists. split; [reflexivity|].
    cbn [pauses]. rewrite pauses_app, events_pauses. reflexivity.
  - cbv zeta. destruct (gives_up n e) eqn:G.
    + (* the last attempt *)
      pose proof (proj1 (gives_up_iff n e) G) as Hlast.
      split; [|split].
      * split; [intros _; exact Hlast|]. intros _.
        rewrite (@attempt_body_gives_up oracle u n v w e Ho G). eexists. reflexivity.
      * intros _. replace (3 + 1 - n) with (S (3 - n)) by lia.
        rewrite retry_loop_S, (@attempt_body_gives_up oracle u n v w e Ho G).
        eexists. split; [reflexivity|].
        cbn [pauses]. rewrite pauses_app, events_pauses. reflexivity.
      * intros Hnot. contradiction.
    + (* another attempt follows *)
      assert (Hnot : ~ (n = 3 \/ n = 2 /\ message e = timeout_message)).
      { intros H. apply gives_up_iff in H. congruence. }
      split; [|split].
      * split; [|intros H; contradiction].
        intros (w' & H).
        rewrite (@attempt_body_retry oracle u n v w e Ho G) in H. discriminate H.
      * intros H. contradiction.
      * intros _.
        exists (ConsoleLog (AttemptFor n u) :: events (oracle (calls w)) u
                ++ [ConsoleError (AttemptFailed n u (message e))]).
        eexists. split; [reflexivity|]. split; [|split].
        -- cbn [pauses]. rewrite pauses_app, events_pauses. reflexivity.
        -- rewrite (@attempt_body_retry oracle u n v w e Ho G).
           cbn [app]. rewrite <- app_assoc. reflexivity.
        -- assert (Hn' : n = 1 \/ n = 2) by lia.
           destruct Hn' as [-> | ->]; cbn [Nat.add Nat.sub];
             rewrite retry_loop_S, (@attempt_body_retry oracle u _ v w e Ho G);
             rewrite retry_loop_S; cbn [app]; rewrite <- app_assoc; reflexivity.
Qed.

(** On the second attempt: the audit timer ends the loop, a navigation error
    leads to a pause and a third attempt, a report ends it with the score. *)
Lemma retry_transitions_witness :
  1 <= 2 <= maxRetries
  /\ (exists t,
        retry_loop (Sample.always Sample.page_hangs) Sample.example_com 2 2 fresh start
        = (Normal (exhausted fresh), {| calls := 1; trace := t |})
        /\ pauses t = 0)
  /\ (exists t,
        attempt_body (Sample.always Sample.page_unreachable) Sample.example_com 2
          fresh start
        = (Normal (Continue fresh), {| calls := 1; trace := t ++ [Sleep 3000] |})
        /\ calls (snd (retry_loop (Sample.always Sample.page_unreachable)
                         Sample.example_com 2 2 fresh start)) = 2)
  /\ (exists t,
        retry_loop (Sample.always Sample.page_ok) Sample.example_com 2 2 fresh start
        = (Normal {| l_score := Some 87%float;
                     l_metaTitle := Js.lit "Example Domain";
                     l_metaDescription := Js.lit "An example" |},
           {| calls := 1; trace := t |})
        /\ pauses t = 0).
Proof.
  assert (Hn : 1 <= 2 <= maxRetries) by (unfold maxRetries; lia).
  split; [exact Hn|]. split; [|split].
  - pose proof (@retry_transitions (Sample.always Sample.page_hangs)
                  Sample.example_com 2 fresh start Hn) as H.
    change (outcome _ _) with (@Throw AuditResult {| message := timeout_message |}) in H.
    destruct H as (_ & H & _). apply H. right. split; reflexivity.
  - pose proof (@retry_transitions (Sample.always Sample.page_unreachable)
                  Sample.example_com 2 fresh start Hn) as H.
    change (outcome _ _)
      with (@Throw AuditResult {| message := Js.lit "net::ERR_NAME_NOT_RESOLVED" |}) in H.
    destruct H as (_ & _ & H).
    destruct H as (t & w1 & Hw1 & _ & Hbody & Hloop).
    + intros [H | [_ H]]; discriminate H.
    + change (maxRetries + 1 - 2) with 2 in Hloop.
      exists t. split; [rewrite Hbody, Hw1; reflexivity|].
      rewrite Hloop, Hw1. reflexivity.
  - pose proof (@retry_transitions (Sample.always Sample.page_ok)
                  Sample.example_com 2 fresh start Hn) as H.
    change (outcome _ _)
      with (Normal {| score := 87%float;
                      metaTitle := Js.lit "Example Domain";
                      metaDescription := Js.lit "An example" |}) in H.
    exact H.
Defined.

(** C2.  When each attempt made on a URL fails with the message "Lighthouse
    audit timed out" (the first call made for it and the one after), the
    runner is called exactly twice for that URL, whatever later calls would
    do, and the row then written is the sentinel. *)
Theorem timeouts_stop_after_two oracle (u : Js.jsstring) (w : World)
    (e1 e2 : Error) :
  outcome (oracle (calls w)) u = Throw e1 ->
  message e1 = timeout_message ->
  outcome (oracle (1 + calls w)) u = Throw e2 ->
  message e2 = timeout_message ->
  exists t,
    process_url oracle u w
    = (Normal tt, {| calls := 2 + calls w;
                     trace := trace w ++ t ++ [Write (sentinel_row u)] |})
    /\ written t = []
    /\ launches t = 2.
Proof.
  intros H1 _ H2 Hm. exact (path_exhausted_at_2 oracle u w H1 H2 Hm).
Qed.

(** Two audits that never answer, in a run whose later calls would succeed. *)
Lemma timeouts_stop_after_two_witness :
  outcome (Sample.first 2 Sample.page_hangs Sample.page_ok 2) Sample.example_com
  = Normal {| score := 87%float;
              metaTitle := Js.lit "Example Domain";
              metaDescription := Js.lit "An example" |}
  /\ exists t,
       process_url (Sample.first 2 Sample.page_hangs Sample.page_ok)
         Sample.example_com start
       = (Normal tt,
          {| calls := 2;
             trace := t ++ [Write (sentinel_row Sample.example_com)] |})
       /\ written t = []
       /\ launches t = 2.
Proof.
  split; [reflexivity|].
  exact (@timeouts_stop_after_two (Sample.first 2 Sample.page_hangs Sample.page_ok)
           Sample.example_com start
           {| message := timeout_message |} {| message := timeout_message |}
           eq_refl eq_refl eq_refl eq_refl).
Defined.

(** C4.  When each attempt made on a URL fails with a message other than
    "Lighthouse audit timed out" (the first call made for it and the two
    after), the runner is called exactly three times for that URL, whatever
    later calls would do, and the row then written is the sentinel. *)
Theorem failures_stop_after_three oracle (u : Js.jsstring) (w : World)
    (e1 e2 e3 : Error) :
  outcome (oracle (calls w)) u = Throw e1 ->
  message e1 <> timeout_message ->
  outcome (oracle (1 + calls w)) u = Throw e2 ->
  message e2 <> timeout_message ->
  outcome (oracle (2 + calls w)) u = Throw e3 ->
  message e3 <> timeout_message ->
  exists t,
    process_url oracle u w
    = (Normal tt, {| calls := 3 + calls w;
                     trace := trace w ++ t ++ [Write (sentinel_row u)] |})
    /\ written t = []
    /\ launches t = 3.
Proof.
  intros H1 _ H2 Hm H3 _. exact (path_exhausted_at_3 oracle u w H1 H2 Hm H3).
Qed.

(** Three navigation errors, in a run whose later calls would succeed. *)
Lemma failures_stop_after_three_witness :
  outcome (Sample.first 3 Sample.page_unreachable Sample.page_ok 3)
    Sample.example_com
  = Normal {| score := 87%float;
              metaTitle := Js.lit "Example Domain";
              metaDescription := Js.lit "An example" |}
  /\ exists t,
       process_url (Sample.first 3 Sample.page_unreachable Sample.page_ok)
         Sample.example_com start
       = (Normal tt,
          {| calls := 3;
             trace := t ++ [Write (sentinel_row Sample.example_com)] |})
       /\ written t = []
       /\ launches t = 3.
Proof.
  split; [reflexivity|].
  refine (@failures_stop_after_three
            (Sample.first 3 Sample.page_unreachable Sample.page_ok)
            Sample.example_com start
            {| message := Js.lit "net::ERR_NAME_NOT_RESOLVED" |}
            {| message := Js.lit "net::ERR_NAME_NOT_RESOLVED" |}
            {| message := Js.lit "net::ERR_NAME_NOT_RESOLVED" |}
            _ _ _ _ _ _);
    try reflexivity; intros E; discriminate E.
Defined.

(** C5.  When the runner fails twice for a URL with messages other than
    "Lighthouse audit timed out" and its third call returns score 87 with a
    title and a description, the row written for that URL carries 87 and that
    title and description; it is not the sentinel row. *)
Theorem third_attempt_is_recorded oracle (u : Js.jsstring) (w : World)
    (e1 e2 : Error) (title description : Js.jsstring) :
  outcome (oracle (calls w)) u = Throw e1 ->
  message e1 <> timeout_message ->
  outcome (oracle (1 + calls w)) u = Throw e2 ->
  message e2 <> timeout_message ->
  outcome (oracle (2 + calls w)) u
  = Normal {| score := 87%float;
              metaTitle := title;
              metaDescription := description |} ->
  let row := {| url := u;
                r_score := Some 87%float;
                r_metaTitle := title;
                r_metaDescription := description |} in
  (exists t,
     process_url oracle u w
     = (Normal tt, {| calls := 3 + calls w;
                      trace := trace w ++ t ++ [Write row] |})
     /\ written t = [])
  /\ row <> sentinel_row u.
Proof.
  intros H1 _ H2 Hm H3 row. split.
  - destruct (path_success_at_3 oracle u w H1 H2 Hm H3) as (t & Hrun & Hw & _).
    exists t. split; [exact Hrun | exact Hw].
  - intros E.
    apply (f_equal (fun r => match r_score r with
                             | Some x => PrimFloat.is_zero x
                             | None => true
                             end)) in E.
    vm_compute in E. discriminate E.
Qed.

Lemma third_attempt_is_recorded_witness :
  exists t,
    process_url (Sample.first 2 Sample.page_unreachable Sample.page_ok)
      Sample.example_com start
    = (Normal tt,
       {| calls := 3;
          trace := t ++ [Write {| url := Sample.example_com;
                                  r_score := Some 87%float;
                                  r_metaTitle := Js.lit "Example Domain";
                                  r_metaDescription := Js.lit "An example" |}] |})
    /\ written t = [].
Proof.
  refine (proj1 (@third_attempt_is_recorded
                   (Sample.first 2 Sample.page_unreachable Sample.page_ok)
                   Sample.example_com start
                   {| message := Js.lit "net::ERR_NAME_NOT_RESOLVED" |}
                   {| message := Js.lit "net::ERR_NAME_NOT_RESOLVED" |}
                   (Js.lit "Example Domain") (Js.lit "An example")
                   _ _ _ _ _));
    try reflexivity; intros E; discriminate E.
Defined.

(** C9.  Giving up on attempt 2 depends on the failure of attempt 2 alone:
    whatever the failure of attempt 1 was, a failure of attempt 2 with the
    message "Lighthouse audit timed out" ends the loop after two calls of the
    runner, with the sentinel row. *)
Theorem second_timeout_is_enough oracle (u : Js.jsstring) (w : World)
    (e1 e2 : Error) :
  outcome (oracle (calls w)) u = Throw e1 ->
  outcome (oracle (1 + calls w)) u = Throw e2 ->
  message e2 = timeout_message ->
  exists t,
    process_url oracle u w
    = (Normal tt, {| calls := 2 + calls w;
                     trace := trace w ++ t ++ [Write (sentinel_row u)] |})
    /\ written t = []
    /\ launches t = 2.
Proof. apply path_exhausted_at_2. Qed.

(** A navigation error, then one audit timeout. *)
Lemma second_timeout_is_enough_witness :
  message {| message := Js.lit "net::ERR_NAME_NOT_RESOLVED" |} <> timeout_message
  /\ exists t,
       process_url Sample.unreachable_then_hangs Sample.example_com start
       = (Normal tt,
          {| calls := 2;
             trace := t ++ [Write (sentinel_row Sample.example_com)] |})
       /\ written t = []
       /\ launches t = 2.
Proof.
  split; [intros E; discriminate E|].
  exact (@second_timeout_is_enough Sample.unreachable_then_hangs
           Sample.example_com start
           {| message := Js.lit "net::ERR_NAME_NOT_RESOLVED" |}
           {| message := timeout_message |}
           eq_refl eq_refl eq_refl).
Defined.

(** What [process_url] leaves behind, read off [process_url_ends]. *)
Lemma after_url_spec oracle (u : Js.jsstring) (w : World) :
  exists v t,
    process_url oracle u w = (Normal tt, after_url oracle u w)
    /\ trace (after_url oracle u w)
       = trace w ++ ConsoleLog (Processing u) :: Sleep 3000 :: t
                 ++ [Write {| url := u;
                              r_score := l_score v;
                              r_metaTitle := l_metaTitle v;
                              r_metaDescription := l_metaDescription v |}]
    /\ written t = []
    /\ calls w < calls (after_url oracle u w) <= calls w + 3
    /\ launches t = calls (after_url oracle u w) - calls w
    /\ teardowns t
       = sessions oracle (calls w) (calls (after_url oracle u w) - calls w)
    /\ match outcome (oracle (pred (calls (after_url oracle u w)))) u with
       | Normal r => v = assigned r
       | Throw _ => v = exhausted fresh
       end.
Proof.
  destruct (process_url_ends oracle u w) as (v & w' & t & Hrun & H).
  unfold after_url. rewrite Hrun. cbn [snd]. exists v, t. split; [reflexivity | exact H].
Qed.

Lemma exhausted_row oracle (u : Js.jsstring) (w : World) :
  ends_exhausted oracle u w ->
  exists t,
    process_url oracle u w = (Normal tt, after_url oracle u w)
    /\ trace (after_url oracle u w) = trace w ++ t ++ [Write (sentinel_row u)]
    /\ written t = [].
Proof.
  intros (e & He).
  destruct (after_url_spec oracle u w) as (v & t & Hrun & Ht & Hw & _ & _ & _ & Hv).
  rewrite He in Hv. subst v.
  exists (ConsoleLog (Processing u) :: Sleep 3000 :: t).
  split; [exact Hrun|]. split; [exact Ht | exact Hw].
Qed.

(** C10.  A failed attempt never changes the locals of its URL: it leaves
    them as they were, or it gives up on them.  So when the retry loop of a
    URL ends exhausted, the title and the description of its row are exactly
    "N/A" (and its score 0), whatever the failed attempts had read from the
    page. *)
Theorem exhausted_metadata_is_NA oracle (u : Js.jsstring) (w : World) :
  ends_exhausted oracle u w ->
  (forall n v w0 e,
      outcome (oracle (calls w0)) u = Throw e ->
      fst (attempt_body oracle u n v w0) = Normal (Continue v)
      \/ fst (attempt_body oracle u n v w0) = Normal (Break (exhausted v)))
  /\ exhausted fresh
     = {| l_score := Some 0%float;
          l_metaTitle := Js.lit "N/A";
          l_metaDescription := Js.lit "N/A" |}
  /\ exists t row,
       process_url oracle u w = (Normal tt, after_url oracle u w)
       /\ trace (after_url oracle u w) = trace w ++ t ++ [Write row]
       /\ written t = []
       /\ url row = u
       /\ r_metaTitle row = Js.lit "N/A"
       /\ r_metaDescription row = Js.lit "N/A".
Proof.
  intros Hx. split; [|split].
  - intros n v w0 e Ho. destruct (gives_up n e) eqn:G.
    + right. now rewrite (@attempt_body_gives_up oracle u n v w0 e Ho G).
    + left. now rewrite (@attempt_body_retry oracle u n v w0 e Ho G).
  - reflexivity.
  - destruct (exhausted_row Hx) as (t & Hrun & Ht & Hw).
    exists t, (sentinel_row u). repeat split; assumption.
Qed.

(** The title "Example Domain" is read on both attempts, and the row still
    says "N/A". *)
Lemma exhausted_metadata_is_NA_witness :
  ends_exhausted (Sample.always Sample.page_hangs) Sample.example_com start
  /\ on_title Sample.page_hangs = Fulfilled (Js.lit "Example Domain")
  /\ exists t row,
       trace (after_url (Sample.always Sample.page_hangs) Sample.example_com start)
       = t ++ [Write row]
       /\ r_metaTitle row = Js.lit "N/A"
       /\ r_metaDescription row = Js.lit "N/A".
Proof.
  assert (Hx : ends_exhausted (Sample.always Sample.page_hangs)
                 Sample.example_com start).
  { eexists. reflexivity. }
  split; [exact Hx|]. split; [reflexivity|].
  destruct (@exhausted_metadata_is_NA (Sample.always Sample.page_hangs)
              Sample.example_com start Hx)
    as (_ & _ & t & row & _ & Ht & _ & _ & Hti & Hde).
  exists t, row. split; [exact Ht|]. split; [exact Hti | exact Hde].
Defined.

(** C8.  No failure of the runner ever escapes the retry loop: the run
    completes normally for every input and every behaviour of the browser and
    of Lighthouse.  When the retry loop of a URL ends exhausted, the sentinel
    row (score 0, "N/A", "N/A") is written for it and the loop over the URLs
    goes on with the next one. *)
Theorem failures_never_abort oracle :
  (forall rows w, fst (main oracle rows w) = Normal tt)
  /\ (forall u w, fst (process_url oracle u w) = Normal tt)
  /\ (forall u rest w,
         ends_exhausted oracle u w ->
         (exists t,
             trace (after_url oracle u w) = trace w ++ t ++ [Write (sentinel_row u)]
             /\ written t = [])
         /\ for_each oracle (u :: rest) w
            = for_each oracle rest (after_url oracle u w)).
Proof.
  split; [|split].
  - intros rows w. unfold main, on_end, bind, emit.
    match goal with
    | |- context [for_each oracle ?us ?w0] =>
        destruct (for_each_ends oracle us w0) as (w' & segs & Hrun & _)
    end.
    rewrite Hrun. reflexivity.
  - intros u w. destruct (after_url_spec oracle u w) as (v & t & Hrun & _).
    now rewrite Hrun.
  - intros u rest w Hx.
    destruct (exhausted_row Hx) as (t & Hrun & Ht & Hw). split.
    + exists t. split; assumption.
    + cbn [for_each]. unfold bind. rewrite Hrun. reflexivity.
Qed.

(** A URL that never answers, followed by one that does. *)
Lemma failures_never_abort_witness :
  ends_exhausted (Sample.first 2 Sample.page_hangs Sample.page_ok)
    Sample.example_com start
  /\ written (trace (snd (for_each (Sample.first 2 Sample.page_hangs Sample.page_ok)
                            [Sample.example_com; Js.lit "https://test.org"] start)))
     = [ sentinel_row Sample.example_com;
         {| url := Js.lit "https://test.org";
            r_score := Some 87%float;
            r_metaTitle := Js.lit "Example Domain";
            r_metaDescription := Js.lit "An example" |} ].
Proof.
  assert (Hx : ends_exhausted (Sample.first 2 Sample.page_hangs Sample.page_ok)
                 Sample.example_com start).
  { eexists. reflexivity. }
  split; [exact Hx|].
  destruct (failures_never_abort (Sample.first 2 Sample.page_hangs Sample.page_ok))
    as (_ & _ & H).
  destruct (H Sample.example_com [Js.lit "https://test.org"] start Hx) as (_ & Hgo).
  rewrite Hgo. reflexivity.
Defined.

(** C3 as stated fails: for this URL the first attempt cannot reach the page
    and the second one succeeds, so two browsers are launched and
    [browser.close()] is called twice for one URL, not once. *)
Lemma teardown_twice_for_one_url :
  teardowns (trace (after_url (Sample.first 1 Sample.page_unreachable Sample.page_ok)
                      Sample.example_com start)) = 2
  /\ teardowns (trace (after_url (Sample.first 1 Sample.page_unreachable Sample.page_ok)
                         Sample.example_com start)) <> 1.
Proof. split; [reflexivity|]. intros E. vm_compute in E. discriminate E. Qed.

(** When [browser.newPage()] rejects, the call leaves before the [try] of
    line 78: a browser was launched and [browser.close()] is not called. *)
Lemma unopened_page_skips_teardown (u : Js.jsstring) :
  launches (events Sample.page_not_opened u) = 1
  /\ teardowns (events Sample.page_not_opened u) = 0.
Proof. split; reflexivity. Qed.

(** C6.  The loader skips a row whose [url] is missing or empty and keeps
    every other row, in order.  What it keeps of a row is its [url] with the
    white space at both ends removed, with "http://" put in front when that
    trimmed value does not start with "http://" or "https://" in any mix of
    upper and lower case, and the trimmed value itself when it does.  The rows
    "example.com", "", "https://test.org" give exactly "http://example.com",
    "https://test.org". *)
Theorem loader_normalises :
  (forall urls, on_data urls {| row_url := None |} = urls)
  /\ (forall urls, on_data urls {| row_url := Some [] |} = urls)
  /\ (forall urls c s,
         on_data urls {| row_url := Some (c :: s) |}
         = urls ++ [formattedUrl (c :: s)])
  /\ (forall rows, load rows = flat_map kept rows)
  /\ (forall s,
         formattedUrl s
         = if starts_with_scheme (Js.trim s)
           then Js.trim s
           else Js.lit "http://" ++ Js.trim s)
  /\ (forall s, exists l r,
         s = l ++ Js.trim s ++ r
         /\ forallb Js.is_white l = true
         /\ forallb Js.is_white r = true
         /\ match Js.trim s with
            | c :: _ => Js.is_white c = false
            | [] => True
            end
         /\ match rev (Js.trim s) with
            | c :: _ => Js.is_white c = false
            | [] => True
            end)
  /\ formattedUrl (Js.lit "HTTPS://Test.org") = Js.lit "HTTPS://Test.org"
  /\ formattedUrl (Js.lit "  http://test.org ") = Js.lit "http://test.org"
  /\ load Sample.three_rows
     = [Js.lit "http://example.com"; Js.lit "https://test.org"].
Proof.
  split; [reflexivity|].
  split; [reflexivity|].
  split; [reflexivity|].
  split; [intros rows; unfold load; now rewrite fold_on_data|].
  split.
  { intros s. unfold formattedUrl. rewrite has_scheme_spec.
    destruct (starts_with_scheme (Js.trim s)); reflexivity. }
  split; [exact trim_spec|].
  split; [reflexivity|].
  split; reflexivity.
Qed.

(** * Further properties *)

(** ** The loader *)

Lemma trimStart_white (s : Js.jsstring) :
  forallb Js.is_white s = true -> Js.trimStart s = [].
Proof.
  induction s as [|c s IH]; simpl; [reflexivity|].
  intros H. apply andb_true_iff in H. destruct H as [Hc Hs].
  rewrite Hc. now apply IH.
Qed.

Lemma trimStart_head (s : Js.jsstring) :
  match s with c :: _ => Js.is_white c = false | [] => True end ->
  Js.trimStart s = s.
Proof. destruct s as [|c s]; simpl; [reflexivity|]. now intros ->. Qed.

(** A value without white space at either end is left alone by [trim]. *)
Lemma trim_fixed (s : Js.jsstring) :
  match s with c :: _ => Js.is_white c = false | [] => True end ->
  match rev s with c :: _ => Js.is_white c = false | [] => True end ->
  Js.trim s = s.
Proof.
  intros Hhd Hlast. unfold Js.trim, Js.trimEnd.
  rewrite (trimStart_head s Hhd), (trimStart_head (rev s) Hlast).
  apply rev_involutive.
Qed.

Lemma trim_trim (s : Js.jsstring) : Js.trim (Js.trim s) = Js.trim s.
Proof.
  destruct (trim_spec s) as (l & r & _ & _ & _ & Hhd & Hlast).
  now apply trim_fixed.
Qed.

Lemma http_prefix_has_scheme (s : Js.jsstring) :
  starts_with_scheme (Js.lit "http://" ++ s) = true.
Proof. reflexivity. Qed.

Lemma formattedUrl_cases (s : Js.jsstring) :
  (starts_with_scheme (Js.trim s) = true /\ formattedUrl s = Js.trim s)
  \/ (starts_with_scheme (Js.trim s) = false
      /\ formattedUrl s = Js.lit "http://" ++ Js.trim s).
Proof.
  unfold formattedUrl. rewrite has_scheme_spec.
  destruct (starts_with_scheme (Js.trim s)); [left | right]; split; reflexivity.
Qed.

Lemma formattedUrl_has_scheme (s : Js.jsstring) :
  starts_with_scheme (formattedUrl s) = true.
Proof.
  destruct (formattedUrl_cases s) as [[H ->] | [_ ->]].
  - exact H.
  - apply http_prefix_has_scheme.
Qed.

Lemma formattedUrl_trimmed (s : Js.jsstring) :
  Js.trim (formattedUrl s) = formattedUrl s.
Proof.
  destruct (formattedUrl_cases s) as [[_ ->] | [_ ->]].
  - apply trim_trim.
  - destruct (trim_spec s) as (l & r & _ & _ & _ & _ & Hlast).
    apply trim_fixed; [reflexivity|].
    rewrite rev_app_distr.
    destruct (rev (Js.trim s)) as [|c m]; [reflexivity | exact Hlast].
Qed.

Lemma load_flat_map (rows : list CsvRow) : load rows = flat_map kept rows.
Proof. unfold load. now rewrite fold_on_data. Qed.

Lemma formattedUrl_again (s : Js.jsstring) :
  formattedUrl (formattedUrl s) = formattedUrl s.
Proof.
  unfold formattedUrl at 1.
  rewrite formattedUrl_trimmed, has_scheme_spec, formattedUrl_has_scheme.
  reflexivity.
Qed.

Lemma kept_nonempty (x : Js.jsstring) :
  x <> [] -> kept {| row_url := Some x |} = [formattedUrl x].
Proof. destruct x as [|c m]; [congruence | reflexivity]. Qed.

Lemma kept_of_formatted (s : Js.jsstring) :
  kept {| row_url := Some (formattedUrl s) |} = [formattedUrl s].
Proof.
  rewrite kept_nonempty, formattedUrl_again; [reflexivity|].
  intros E. pose proof (formattedUrl_has_scheme s) as H.
  rewrite E in H. discriminate H.
Qed.

Lemma reload_kept (row : CsvRow) :
  flat_map kept (map (fun u => {| row_url := Some u |}) (kept row)) = kept row.
Proof.
  destruct row as [[[|c s]|]]; try reflexivity.
  change (kept {| row_url := Some (c :: s) |}) with [formattedUrl (c :: s)].
  cbn [map flat_map]. rewrite kept_of_formatted. reflexivity.
Qed.

(** X1.  Every URL the loader produces starts with "http://" or "https://"
    (in some mix of case), whatever the rows were. *)
Theorem loaded_urls_have_scheme (rows : list CsvRow) :
  forallb starts_with_scheme (load rows) = true.
Proof.
  rewrite load_flat_map. induction rows as [|row rows IH]; [reflexivity|].
  cbn [flat_map]. rewrite forallb_app, IH, andb_true_r.
  unfold kept. destruct (row_url row) as [[|c s]|]; try reflexivity.
  cbn [forallb]. now rewrite formattedUrl_has_scheme.
Qed.

(** X2.  Normalising is idempotent: a normalised URL is normalised to itself,
    and feeding the loaded URLs through the loader again gives the same list. *)
Theorem loading_is_idempotent :
  (forall s, formattedUrl (formattedUrl s) = formattedUrl s)
  /\ (forall rows,
         load (map (fun u => {| row_url := Some u |}) (load rows)) = load rows).
Proof.
  split.
  - exact formattedUrl_again.
  - intros rows. rewrite !load_flat_map.
    induction rows as [|row rows IH]; [reflexivity|].
    cbn [flat_map]. rewrite map_app, flat_map_app, IH. f_equal.
    apply reload_kept.
Qed.

(** X3.  A [url] made of white space only is not skipped: it is not the empty
    string, so the row is kept, and what is pushed is the bare "http://". *)
Theorem blank_url_becomes_bare_scheme (urls : list Js.jsstring) (c : N)
    (s : Js.jsstring) :
  forallb Js.is_white (c :: s) = true ->
  on_data urls {| row_url := Some (c :: s) |} = urls ++ [Js.lit "http://"].
Proof.
  intros H. rewrite on_data_kept. unfold kept, formattedUrl. cbn [row_url].
  unfold Js.trim. rewrite (trimStart_white _ H). reflexivity.
Qed.

Lemma blank_url_becomes_bare_scheme_witness :
  forallb Js.is_white (Js.lit "  ") = true
  /\ on_data [Js.lit "https://test.org"] {| row_url := Some (Js.lit "  ") |}
     = [Js.lit "https://test.org"; Js.lit "http://"].
Proof.
  split; [reflexivity|].
  exact (@blank_url_becomes_bare_scheme [Js.lit "https://test.org"] 32%N [32%N]
           eq_refl).
Defined.

Lemma load_length (rows : list CsvRow) :
  List.length (load rows) <= List.length rows.
Proof.
  rewrite load_flat_map.
  induction rows as [|row rows IH]; [apply le_n|].
  cbn [flat_map]. rewrite length_app.
  destruct row as [[[|c s]|]]; simpl; lia.
Qed.

(** X4.  The loader works row by row: loading two batches of rows one after
    the other gives the URLs of the first followed by those of the second, and
    there are never more URLs than rows. *)
Theorem load_by_rows :
  (forall a b, load (a ++ b) = load a ++ load b)
  /\ (forall rows, List.length (load rows) <= List.length rows).
Proof.
  split.
  - intros a b. rewrite !load_flat_map. apply flat_map_app.
  - exact load_length.
Qed.

(** ** The audit runner *)

(** The completion of a call, step by step. *)
Lemma outcome_table (b : Behaviour) (u : Js.jsstring) :
  outcome b u
  = match on_launch b, on_newPage b with
    | Rejected e, _ => Throw e
    | Fulfilled _, Rejected e => Throw e
    | Fulfilled _, Fulfilled _ =>
        match on_close b with
        | Rejected e => Throw e
        | Fulfilled _ =>
            match on_goto b, on_title b, on_import b, on_lighthouse b with
            | Rejected e, _, _, _ => Throw e
            | Fulfilled _, Rejected e, _, _ => Throw e
            | Fulfilled _, Fulfilled _, Rejected e, _ => Throw e
            | Fulfilled _, Fulfilled _, Fulfilled _, Fails e => Throw e
            | Fulfilled _, Fulfilled _, Fulfilled _, StillPending =>
                Throw {| message := timeout_message |}
            | Fulfilled _, Fulfilled title, Fulfilled _, Reports fraction =>
                Normal {| score := PrimFloat.mul fraction 100;
                          metaTitle := title;
                          metaDescription := description_of b |}
            end
        end
    end.
Proof. each_behaviour b; reflexivity. Qed.

(** X5.  A call of the runner succeeds exactly when the browser launches, the
    page opens, the navigation, the title, the import and the audit all
    succeed and the browser closes without error; its result is then the
    reported fraction times 100, the title, and the description (or "No meta
    description" when reading it failed). *)
Theorem audit_succeeds_iff (b : Behaviour) (u : Js.jsstring) (r : AuditResult) :
  outcome b u = Normal r
  <-> exists title fraction,
        on_launch b = Fulfilled tt
        /\ on_newPage b = Fulfilled tt
        /\ on_goto b = Fulfilled tt
        /\ on_title b = Fulfilled title
        /\ on_import b = Fulfilled tt
        /\ on_lighthouse b = Reports fraction
        /\ on_close b = Fulfilled tt
        /\ r = {| score := PrimFloat.mul fraction 100;
                  metaTitle := title;
                  metaDescription := description_of b |}.
Proof.
  rewrite outcome_table. split.
  - destruct (on_launch b) as [[]|]; [|discriminate].
    destruct (on_newPage b) as [[]|]; [|discriminate].
    destruct (on_close b) as [[]|]; [|discriminate].
    destruct (on_goto b) as [[]|]; [|discriminate].
    destruct (on_title b) as [title|]; [|discriminate].
    destruct (on_import b) as [[]|]; [|discriminate].
    destruct (on_lighthouse b) as [fraction| |]; try discriminate.
    intros H. exists title, fraction. repeat split. congruence.
  - intros (title & fraction & -> & -> & -> & -> & -> & -> & -> & ->).
    reflexivity.
Qed.

(** X6.  A failure to read the meta description changes nothing but the
    description: the call does the same things and completes the same way as
    if the page had had the description "No meta description". *)
Theorem description_failure_is_harmless (b : Behaviour) (u : Js.jsstring)
    (e : Error) :
  outcome (with_description b (Rejected e)) u
  = outcome (with_description b (Fulfilled (Js.lit "No meta description"))) u
  /\ events (with_description b (Rejected e)) u
     = events (with_description b (Fulfilled (Js.lit "No meta description"))) u.
Proof. each_behaviour b; split; reflexivity. Qed.

(** X7.  When the navigation fails in an opened session that then closes
    cleanly, the call fails with the navigation error itself; it logs the
    error, reads neither title nor description, does not start Lighthouse,
    and closes the browser. *)
Theorem navigation_failure (b : Behaviour) (u : Js.jsstring) (e : Error) :
  session_opened b = true ->
  on_goto b = Rejected e ->
  on_close b = Fulfilled tt ->
  outcome b u = Throw e
  /\ events b u
     = [Launch; NewPage; ConsoleLog (Navigating u); Goto u;
        ConsoleError (ErrorDuring u (message e)); Close]
  /\ existsb after_navigation (events b u) = false.
Proof.
  unfold session_opened.
  each_behaviour b; cbn [on_launch on_newPage on_goto on_close];
    intros Ho Hg Hc; try discriminate Ho; try discriminate Hg;
    try discriminate Hc; injection Hg as ->; repeat split.
Qed.

Lemma navigation_failure_witness :
  outcome Sample.page_unreachable Sample.example_com
  = Throw {| message := Js.lit "net::ERR_NAME_NOT_RESOLVED" |}
  /\ teardowns (events Sample.page_unreachable Sample.example_com) = 1.
Proof.
  destruct (@navigation_failure Sample.page_unreachable Sample.example_com
              {| message := Js.lit "net::ERR_NAME_NOT_RESOLVED" |}
              eq_refl eq_refl eq_refl) as (Ho & Hev & _).
  split; [exact Ho|]. rewrite Hev. reflexivity.
Defined.

(** X8.  An error of [browser.close()] replaces whatever the call had
    achieved: in an opened session whose close rejects with [e], the call
    fails with [e], also when the audit had produced a report. *)
Theorem close_failure_masks_result (b : Behaviour) (u : Js.jsstring) (e : Error) :
  session_opened b = true ->
  on_close b = Rejected e ->
  outcome b u = Throw e.
Proof.
  unfold session_opened. intros Ho Hc. rewrite outcome_table, Hc.
  destruct (on_launch b); [|discriminate Ho].
  destruct (on_newPage b); [reflexivity | discriminate Ho].
Qed.

Lemma close_failure_masks_result_witness :
  on_lighthouse More.page_close_fails = Reports 0x1.bd70a3d70a3d7p-1%float
  /\ outcome More.page_close_fails Sample.example_com
     = Throw {| message := Js.lit "Protocol error: Connection closed" |}.
Proof.
  split; [reflexivity|].
  exact (@close_failure_masks_result More.page_close_fails Sample.example_com
           {| message := Js.lit "Protocol error: Connection closed" |}
           eq_refl eq_refl).
Defined.

(** ** Accounts of a run *)

Lemma waited_app (a b : list Event) : waited (a ++ b) = (waited a + waited b)%N.
Proof.
  induction a as [|ev a IH]; simpl; [reflexivity|].
  destruct ev; simpl; rewrite IH; try reflexivity. apply N.add_assoc.
Qed.

Lemma stream_ops_app (a b : list Event) :
  stream_ops (a ++ b) = stream_ops a + stream_ops b.
Proof.
  induction a as [|ev a IH]; simpl; [reflexivity|].
  destruct ev; simpl; rewrite IH; reflexivity.
Qed.

Lemma browser_after_app (a b : list Event) : forall open,
  browser_after open (a ++ b)
  = match browser_after open a with
    | Some open' => browser_after open' b
    | None => None
    end.
Proof.
  induction a as [|ev a IH]; intros open; [reflexivity|].
  destruct ev; cbn [app browser_after]; try apply IH;
    destruct open; try reflexivity; apply IH.
Qed.

Lemma events_waited (b : Behaviour) (u : Js.jsstring) : waited (events b u) = 0%N.
Proof. each_behaviour b; reflexivity. Qed.

Lemma events_stream_ops (b : Behaviour) (u : Js.jsstring) :
  stream_ops (events b u) = 0.
Proof. each_behaviour b; reflexivity. Qed.

Lemma events_browser_after (b : Behaviour) (u : Js.jsstring) :
  session_opened b = true -> browser_after false (events b u) = Some false.
Proof.
  unfold session_opened.
  each_behaviour b; cbn [on_launch on_newPage]; intros H;
    try discriminate H; reflexivity.
Qed.

Lemma skipn_prefix {A} (l t : list A) : skipn (List.length l) (l ++ t) = t.
Proof. induction l as [|x l IH]; [reflexivity | exact IH]. Qed.

Section Accounts.

Variable oracle : nat -> Behaviour.
Variable u : Js.jsstring.

(** The loop left after a single call of the runner. *)
Ltac single_call :=
  do 3 eexists; split; [reflexivity|]; cbn [calls trace];
  split; [reflexivity|];
  split; [lia|];
  rewrite Nat.sub_diag;
  cbn [pauses waited stream_ops browser_after];
  rewrite pauses_app, waited_app, stream_ops_app, browser_after_app,
    events_pauses, events_waited, events_stream_ops;
  cbn [pauses waited stream_ops browser_after];
  repeat split; try reflexivity;
  intros Hopen; rewrite events_browser_after by (apply Hopen; lia);
  reflexivity.

(** What the retry loop costs: one pause before each attempt but the first,
    3 seconds each; the output stream is not touched; each browser is closed
    before the next is launched. *)
Lemma retry_loop_account k : forall n v w,
  n + k = maxRetries ->
  exists v' w' t,
    retry_loop oracle u (S k) n v w = (Normal v', w')
    /\ trace w' = trace w ++ t
    /\ calls w < calls w' <= calls w + S k
    /\ pauses t = calls w' - S (calls w)
    /\ waited t = (3000 * N.of_nat (pauses t))%N
    /\ stream_ops t = 0
    /\ ((forall i, calls w <= i < calls w' -> session_opened (oracle i) = true) ->
        browser_after false t = Some false).
Proof.
  induction k as [|k IH]; intros n v w Hn; rewrite retry_loop_S;
    destruct (outcome (oracle (calls w)) u) as [r|e] eqn:Ho.
  - rewrite (attempt_body_success oracle u n v w Ho). single_call.
  - assert (G : gives_up n e = true)
      by (apply gives_up_iff; unfold maxRetries in Hn; lia).
    rewrite (attempt_body_gives_up oracle u n v w Ho G). single_call.
  - rewrite (attempt_body_success oracle u n v w Ho). single_call.
  - destruct (gives_up n e) eqn:G.
    + rewrite (attempt_body_gives_up oracle u n v w Ho G). single_call.
    + rewrite (attempt_body_retry oracle u n v w Ho G).
      match goal with
      | |- context [retry_loop _ _ _ _ _ ?w1] => set (w1' := w1)
      end.
      destruct (IH (S n) v w1' ltac:(lia))
        as (v' & w' & t & Hrun & Ht & Hc & Hp & Hwt & Hs & Hb).
      subst w1'. cbn [calls trace] in Ht, Hc, Hp.
      exists v', w'. eexists. split; [exact Hrun|].
      split; [rewrite Ht, <- app_assoc; reflexivity|].
      split; [lia|].
      rewrite pauses_app, waited_app, stream_ops_app, Hs, Hwt, Hp.
      cbn [pauses waited stream_ops].
      rewrite pauses_app, waited_app, stream_ops_app,
        events_pauses, events_waited, events_stream_ops.
      cbn [pauses waited stream_ops].
      split; [lia|]. split; [lia|]. split; [reflexivity|].
      intros Hopen. rewrite browser_after_app. cbn [browser_after].
      rewrite browser_after_app, events_browser_after by (apply Hopen; lia).
      cbn [browser_after]. apply Hb. intros i Hi. cbn [calls] in Hi.
      apply Hopen. lia.
Qed.

End Accounts.

Lemma row_accounted_widen oracle lo hi lo' hi' row :
  lo' <= lo -> hi <= hi' ->
  row_accounted oracle lo hi row -> row_accounted oracle lo' hi' row.
Proof.
  intros Hlo Hhi [H | (k & r & Hk & Ho & Hr)]; [left; exact H|].
  right. exists k, r. repeat split; try assumption; lia.
Qed.

Section Run.

Variable oracle : nat -> Behaviour.

(** One URL: what is added to the trace, and what it amounts to. *)
Lemma process_url_account u w :
  exists row d,
    process_url oracle u w = (Normal tt, after_url oracle u w)
    /\ trace (after_url oracle u w) = trace w ++ d
    /\ written d = [row]
    /\ url row = u
    /\ has_score row = true
    /\ row_accounted oracle (calls w) (calls (after_url oracle u w)) row
    /\ calls w < calls (after_url oracle u w) <= calls w + 3
    /\ launches d = calls (after_url oracle u w) - calls w
    /\ pauses d = calls (after_url oracle u w) - calls w
    /\ waited d = (3000 * N.of_nat (pauses d))%N
    /\ stream_ops d = 0
    /\ ((forall i, calls w <= i < calls (after_url oracle u w) ->
                   session_opened (oracle i) = true) ->
        browser_after false d = Some false).
Proof.
  destruct (after_url_spec oracle u w)
    as (v & t & Hrun & Ht & Hw & Hc & Hl & _ & Hv).
  destruct (@retry_loop_account oracle u 2 1 fresh
              {| calls := calls w;
                 trace := trace w ++ [ConsoleLog (Processing u); Sleep 3000] |}
              eq_refl)
    as (v2 & w2 & t2 & Hrun2 & Ht2 & _ & Hp & Hwt & Hs & Hb).
  pose proof (process_url_run oracle u w) as Hpr.
  change maxRetries with 3 in Hpr. rewrite Hrun2, Hrun in Hpr.
  injection Hpr as Hafter.
  assert (Hcalls : calls w2 = calls (after_url oracle u w))
    by (rewrite Hafter; reflexivity).
  assert (Htr : trace (after_url oracle u w) = trace w2 ++ [Write
            {| url := u; r_score := l_score v2; r_metaTitle := l_metaTitle v2;
               r_metaDescription := l_metaDescription v2 |}])
    by (rewrite Hafter; reflexivity).
  cbn [calls trace] in Ht2, Hp.
  rewrite Ht2, Ht, <- !app_assoc in Htr. apply app_inv_head in Htr.
  cbn [app] in Htr. injection Htr as Htr. apply app_inj_tail in Htr.
  destruct Htr as [<- _]. rewrite Hcalls in Hp.
  eexists. exists (ConsoleLog (Processing u) :: Sleep 3000 :: t ++
                   [Write {| url := u; r_score := l_score v;
                             r_metaTitle := l_metaTitle v;
                             r_metaDescription := l_metaDescription v |}]).
  split; [exact Hrun|]. split; [exact Ht|].
  cbn [written launches pauses waited stream_ops browser_after].
  rewrite written_app, launches_app, pauses_app, waited_app, stream_ops_app, Hw.
  cbn [written launches pauses waited stream_ops app].
  split; [reflexivity|]. split; [reflexivity|].
  split.
  { unfold has_score. cbn [r_score].
    destruct (outcome (oracle (pred (calls (after_url oracle u w)))) u);
      subst v; reflexivity. }
  split.
  { destruct (outcome (oracle (pred (calls (after_url oracle u w)))) u)
      as [r|e] eqn:Ho; subst v.
    - right. exists (pred (calls (after_url oracle u w))), r.
      cbn [url]. repeat split; try assumption; lia.
    - left. reflexivity. }
  split; [lia|]. split; [lia|]. split; [lia|].
  split; [rewrite Hwt; lia|]. split; [lia|].
  intros Hopen. rewrite browser_after_app, Hb; [reflexivity|].
  intros i Hi. apply Hopen. rewrite <- Hcalls. exact Hi.
Qed.

(** All the URLs. *)
Lemma for_each_account urls : forall w,
  exists w' d,
    for_each oracle urls w = (Normal tt, w')
    /\ trace w' = trace w ++ d
    /\ map url (written d) = urls
    /\ forallb has_score (written d) = true
    /\ calls w <= calls w'
    /\ Forall (row_accounted oracle (calls w) (calls w')) (written d)
    /\ List.length urls <= calls w' - calls w <= 3 * List.length urls
    /\ launches d = calls w' - calls w
    /\ pauses d = calls w' - calls w
    /\ waited d = (3000 * N.of_nat (pauses d))%N
    /\ stream_ops d = 0
    /\ ((forall i, calls w <= i < calls w' -> session_opened (oracle i) = true) ->
        browser_after false d = Some false).
Proof.
  induction urls as [|u urls IH]; intros w.
  - exists w, []. cbn. unfold ret. rewrite app_nil_r, Nat.sub_diag.
    repeat split; auto.
  - destruct (process_url_account u w)
      as (row & d1 & Hrun & Ht & Hw & Hu & Hsc & Hacc & Hc & Hl & Hp & Hwt & Hs & Hb).
    set (w1 := after_url oracle u w) in *.
    destruct (IH w1)
      as (w' & d2 & Hrun' & Ht' & Hw' & Hsc' & Hle' & Hacc' & Hc' & Hl' & Hp'
          & Hwt' & Hs' & Hb').
    exists w', (d1 ++ d2).
    split; [cbn [for_each]; unfold bind; rewrite Hrun; exact Hrun'|].
    split; [rewrite Ht', Ht, app_assoc; reflexivity|].
    rewrite written_app, launches_app, pauses_app, waited_app, stream_ops_app,
      Hw, Hs, Hs'.
    cbn [app map forallb List.length].
    split; [rewrite Hu, Hw'; reflexivity|].
    split; [rewrite Hsc, Hsc'; reflexivity|].
    split; [lia|].
    split.
    { constructor.
      - apply (row_accounted_widen (lo:=calls w) (hi:=calls w1)); try lia.
        exact Hacc.
      - eapply Forall_impl; [|exact Hacc']. intros r.
        apply row_accounted_widen; lia. }
    split; [lia|]. split; [lia|]. split; [lia|].
    split; [rewrite Hwt, Hwt'; lia|]. split; [reflexivity|].
    intros Hopen. rewrite browser_after_app, Hb.
    + apply Hb'. intros i Hi. apply Hopen. lia.
    + intros i Hi. apply Hopen. lia.
Qed.

End Run.

(** The whole run, between the opening and the ending of the output stream. *)
Lemma on_end_account oracle (urls : list Js.jsstring) (w : World) :
  exists d,
    fst (on_end oracle urls w) = Normal tt
    /\ run_trace oracle urls w
       = ConsoleLog CsvProcessed :: OpenOutput :: d
         ++ [EndOutput; ConsoleLog AuditsCompleted]
    /\ map url (written d) = urls
    /\ forallb has_score (written d) = true
    /\ Forall (row_accounted oracle (calls w) (calls w + run_calls oracle urls w))
         (written d)
    /\ List.length urls <= run_calls oracle urls w <= 3 * List.length urls
    /\ launches d = run_calls oracle urls w
    /\ pauses d = run_calls oracle urls w
    /\ waited d = (3000 * N.of_nat (run_calls oracle urls w))%N
    /\ stream_ops d = 0
    /\ ((forall i, calls w <= i < calls w + run_calls oracle urls w ->
                   session_opened (oracle i) = true) ->
        browser_after false d = Some false).
Proof.
  destruct (for_each_account oracle urls
              {| calls := calls w;
                 trace := trace w ++ [ConsoleLog CsvProcessed; OpenOutput] |})
    as (w' & d & Hrun & Ht & Hw & Hsc & Hle & Hacc & Hc & Hl & Hp & Hwt & Hs & Hb).
  cbn [calls trace] in *.
  assert (Hend : on_end oracle urls w
                 = (Normal tt,
                    {| calls := calls w';
                       trace := trace w ++ ConsoleLog CsvProcessed :: OpenOutput
                                  :: d ++ [EndOutput; ConsoleLog AuditsCompleted] |})).
  { unfold on_end, bind, emit. cbn [calls trace].
    rewrite <- app_assoc. cbn [app]. rewrite Hrun. cbn [calls trace].
    rewrite Ht, <- !app_assoc. reflexivity. }
  assert (Hcalls : run_calls oracle urls w = calls w' - calls w)
    by (unfold run_calls; rewrite Hend; reflexivity).
  exists d. unfold run_trace. rewrite Hend, Hcalls. cbn [fst snd trace].
  rewrite skipn_prefix.
  replace (calls w + (calls w' - calls w)) with (calls w') by lia.
  rewrite Hwt, Hp. repeat split; try assumption; lia.
Qed.

(** ** What a run amounts to *)

(** X12.  The output stream is opened once, before any row is written, and
    ended once, after the last row; between the two nothing opens or ends
    it. *)
Theorem output_stream_protocol oracle (urls : list Js.jsstring) (w : World) :
  exists d,
    run_trace oracle urls w
    = ConsoleLog CsvProcessed :: OpenOutput :: d
      ++ [EndOutput; ConsoleLog AuditsCompleted]
    /\ stream_ops d = 0
    /\ written d = written (run_trace oracle urls w)
    /\ stream_ops (run_trace oracle urls w) = 2.
Proof.
  destruct (on_end_account oracle urls w)
    as (d & _ & Hrt & _ & _ & _ & _ & _ & _ & _ & Hs & _).
  exists d. split; [exact Hrt|]. split; [exact Hs|]. rewrite Hrt.
  cbn [written stream_ops]. rewrite written_app, stream_ops_app, Hs.
  cbn [written stream_ops]. rewrite app_nil_r. split; reflexivity.
Qed.

(** X14.  When the last call made for a URL succeeds, the row of that URL
    carries exactly what that call returned, whatever the earlier attempts
    did. *)
Theorem success_row oracle (u : Js.jsstring) (w : World) (r : AuditResult) :
  outcome (oracle (pred (calls (after_url oracle u w)))) u = Normal r ->
  exists t,
    process_url oracle u w = (Normal tt, after_url oracle u w)
    /\ trace (after_url oracle u w) = trace w ++ t ++ [Write (result_row u r)]
    /\ written t = [].
Proof.
  intros Ho.
  destruct (after_url_spec oracle u w) as (v & t & Hrun & Ht & Hw & _ & _ & _ & Hv).
  rewrite Ho in Hv. subst v.
  exists (ConsoleLog (Processing u) :: Sleep 3000 :: t).
  split; [exact Hrun|]. split; [exact Ht | exact Hw].
Qed.

(** A navigation error, then a report: the row has the report. *)
Lemma success_row_witness :
  exists t,
    trace (after_url (Sample.first 1 Sample.page_unreachable Sample.page_ok)
             Sample.example_com start)
    = t ++ [Write {| url := Sample.example_com;
                     r_score := Some 87%float;
                     r_metaTitle := Js.lit "Example Domain";
                     r_metaDescription := Js.lit "An example" |}]
    /\ written t = [].
Proof.
  destruct (@success_row (Sample.first 1 Sample.page_unreachable Sample.page_ok)
              Sample.example_com start
              {| score := 87%float;
                 metaTitle := Js.lit "Example Domain";
                 metaDescription := Js.lit "An example" |}
              eq_refl) as (t & _ & Ht & Hw).
  exists t. split; [exact Ht | exact Hw].
Defined.

(** X16.  Processing a list of URLs is processing a first part and then the
    rest from the state the first part left. *)
Theorem for_each_app oracle (a b : list Js.jsstring) (w : World) :
  for_each oracle (a ++ b) w
  = for_each oracle b (snd (for_each oracle a w)).
Proof.
  revert w. induction a as [|u a IH]; intros w; [reflexivity|].
  cbn [app for_each]. unfold bind.
  destruct (after_url_spec oracle u w) as (v & t & Hrun & _).
  rewrite Hrun. apply IH.
Qed.

(** ** Episodes *)

Lemma separated_by_cons (sep : Event) (p q : list Event)
    (rest : list (list Event)) :
  separated_by sep (p :: q :: rest) = p ++ sep :: separated_by sep (q :: rest).
Proof. reflexivity. Qed.

Lemma attempt_events_counts oracle (u : Js.jsstring) (n k : nat) :
  launches (attempt_events oracle u n k) = 1
  /\ pauses (attempt_events oracle u n k) = 0
  /\ written (attempt_events oracle u n k) = [].
Proof.
  unfold attempt_events. cbn [launches pauses written].
  rewrite launches_app, pauses_app, written_app, events_launches,
    events_pauses, events_written.
  destruct (outcome (oracle k) u) as [r|e]; [repeat split|].
  destruct (gives_up n e); repeat split.
Qed.

Lemma attempts_counts oracle (u : Js.jsstring) (m : nat) : forall n k,
  Forall (fun a => launches a = 1 /\ pauses a = 0 /\ written a = [])
    (attempts oracle u m n k).
Proof.
  induction m as [|m IH]; intros n k; constructor.
  - apply attempt_events_counts.
  - apply IH.
Qed.

Lemma attempts_length oracle (u : Js.jsstring) (m : nat) : forall n k,
  List.length (attempts oracle u m n k) = m.
Proof.
  induction m as [|m IH]; intros n k; [reflexivity|].
  cbn [attempts List.length]. now rewrite IH.
Qed.

Lemma separated_counts (parts : list (list Event)) :
  Forall (fun a => launches a = 1 /\ pauses a = 0 /\ written a = []) parts ->
  launches (separated_by (Sleep 3000) parts) = List.length parts
  /\ pauses (separated_by (Sleep 3000) parts) = pred (List.length parts)
  /\ written (separated_by (Sleep 3000) parts) = [].
Proof.
  induction parts as [|p rest IH]; intros H; [repeat split|].
  inversion H as [|? ? (Hl & Hp & Hw) Hrest]; subst.
  destruct rest as [|q rest].
  - cbn [separated_by List.length pred]. repeat split; assumption.
  - rewrite separated_by_cons, launches_app, pauses_app, written_app.
    cbn [launches pauses written].
    destruct (IH Hrest) as (Hl' & Hp' & Hw').
    rewrite Hl, Hp, Hw, Hl', Hp', Hw'. cbn [List.length pred].
    repeat split; lia.
Qed.

Section Shape.

Variable oracle : nat -> Behaviour.
Variable u : Js.jsstring.

(** The loop left after its first attempt. *)
Ltac one_attempt Ho :=
  exists 1; eexists; split; [lia|];
  split; [|split; [intros i Hi; lia|]];
  [ cbn [attempts separated_by]; unfold attempt_events;
    rewrite Ho, Nat.add_1_r;
    repeat match goal with G : gives_up _ _ = _ |- _ => rewrite G end;
    reflexivity
  | cbn [Nat.sub]; rewrite !Nat.add_0_r, Ho; auto ].

(** The retry loop from attempt [n] on: it makes [m] attempts and stops at
    the first that succeeds or on which it gives up. *)
Lemma retry_loop_shape k : forall n v w,
  n + k = maxRetries ->
  exists m v',
    1 <= m <= S k
    /\ retry_loop oracle u (S k) n v w
       = (Normal v',
          {| calls := calls w + m;
             trace := trace w
                      ++ separated_by (Sleep 3000)
                           (attempts oracle u m n (calls w)) |})
    /\ (forall i, i < m - 1 ->
        exists e,
          outcome (oracle (calls w + i)) u = Throw e
          /\ gives_up (n + i) e = false)
    /\ match outcome (oracle (calls w + (m - 1))) u with
       | Normal r => v' = assigned r
       | Throw e => gives_up (n + (m - 1)) e = true /\ v' = exhausted v
       end.
Proof.
  induction k as [|k IH]; intros n v w Hn; rewrite retry_loop_S;
    destruct (outcome (oracle (calls w)) u) as [r|e] eqn:Ho.
  - rewrite (attempt_body_success oracle u n v w Ho). one_attempt Ho.
  - assert (G : gives_up n e = true)
      by (apply gives_up_iff; unfold maxRetries in Hn; lia).
    rewrite (attempt_body_gives_up oracle u n v w Ho G). one_attempt Ho.
  - rewrite (attempt_body_success oracle u n v w Ho). one_attempt Ho.
  - destruct (gives_up n e) eqn:G.
    { rewrite (attempt_body_gives_up oracle u n v w Ho G). one_attempt Ho. }
    rewrite (attempt_body_retry oracle u n v w Ho G).
    match goal with
    | |- context [retry_loop _ _ _ _ _ ?w1] => set (w1' := w1)
    end.
    destruct (IH (S n) v w1' ltac:(lia)) as (m & v' & Hm & Hrun & Hmid & Hlast).
    subst w1'. cbn [calls trace] in Hrun, Hmid, Hlast.
    exists (S m), v'. split; [lia|]. split; [|split].
    + rewrite Hrun. f_equal. f_equal; [lia|].
      destruct m as [|m]; [lia|].
      cbn [attempts]. rewrite separated_by_cons. unfold attempt_events at 2.
      rewrite Ho, G. rewrite <- !app_assoc. cbn [app].
      rewrite <- !app_assoc. reflexivity.
    + intros [|i] Hi.
      * exists e. rewrite !Nat.add_0_r. split; assumption.
      * destruct (Hmid i ltac:(lia)) as (e' & He' & Hg').
        exists e'. replace (calls w + S i) with (S (calls w) + i) by lia.
        replace (n + S i) with (S n + i) by lia. split; assumption.
    + replace (calls w + (S m - 1)) with (S (calls w) + (m - 1)) by lia.
      replace (n + (S m - 1)) with (S n + (m - 1)) by lia. exact Hlast.
Qed.

End Shape.

(** One URL makes one episode, over the calls it made. *)
Lemma process_url_episode oracle (u : Js.jsstring) (w : World) :
  exists seg,
    process_url oracle u w = (Normal tt, after_url oracle u w)
    /\ trace (after_url oracle u w) = trace w ++ seg
    /\ calls w <= calls (after_url oracle u w)
    /\ url_episode oracle u (calls w) (calls (after_url oracle u w)) seg.
Proof.
  destruct (@retry_loop_shape oracle u 2 1 fresh
              {| calls := calls w;
                 trace := trace w ++ [ConsoleLog (Processing u); Sleep 3000] |}
              eq_refl)
    as (m & v & Hm & Hrun & Hmid & Hlast).
  cbn [calls trace] in Hrun, Hmid, Hlast.
  pose proof (process_url_run oracle u w) as Hpr.
  change maxRetries with 3 in Hpr. rewrite Hrun in Hpr. cbn [calls trace] in Hpr.
  unfold after_url. rewrite Hpr. cbn [snd calls trace].
  eexists. split; [reflexivity|]. split; [|split; [lia|]].
  - rewrite <- !app_assoc. cbn [app]. reflexivity.
  - exists m. eexists. split; [exact Hm|]. split; [reflexivity|].
    split; [reflexivity|]. split; [apply attempts_counts|].
    split; [exact Hmid|].
    destruct (outcome (oracle (calls w + (m - 1))) u) as [r|e].
    + subst v. reflexivity.
    + destruct Hlast as [G ->]. split; [|reflexivity].
      replace (1 + (m - 1)) with m in G by lia. exact G.
Qed.

Lemma for_each_episodes oracle (urls : list Js.jsstring) : forall w,
  exists w' segs,
    for_each oracle urls w = (Normal tt, w')
    /\ trace w' = trace w ++ List.concat segs
    /\ calls w <= calls w'
    /\ episodes oracle (calls w) urls segs (calls w').
Proof.
  induction urls as [|u urls IH]; intros w.
  - exists w, []. cbn. unfold ret. rewrite app_nil_r.
    repeat split; [lia | constructor].
  - destruct (process_url_episode oracle u w) as (seg & Hrun & Ht & Hle & Hep).
    destruct (IH (after_url oracle u w)) as (w' & segs & Hrun' & Ht' & Hle' & Heps).
    exists w', (seg :: segs). split; [|split; [|split]].
    + cbn [for_each]. unfold bind. rewrite Hrun. exact Hrun'.
    + rewrite Ht', Ht. cbn [List.concat]. rewrite <- app_assoc. reflexivity.
    + lia.
    + econstructor; eassumption.
Qed.

Lemma url_episode_segment oracle (u : Js.jsstring) (lo hi : nat)
    (seg : list Event) :
  url_episode oracle u lo hi seg -> url_segment u seg.
Proof.
  intros (m & row & Hm & Hhi & -> & Hparts & _ & Hlast).
  destruct (separated_counts Hparts) as (_ & _ & Hw).
  eexists (Sleep 3000 :: _), row. split; [reflexivity|].
  split; [exact Hw|].
  destruct (outcome (oracle (lo + (m - 1))) u) as [r|e].
  - subst row. reflexivity.
  - destruct Hlast as [_ ->]. reflexivity.
Qed.

Lemma episodes_segments oracle (urls : list Js.jsstring)
    (segs : list (list Event)) (lo hi : nat) :
  episodes oracle lo urls segs hi -> Forall2 url_segment urls segs.
Proof.
  induction 1 as [|u urls seg segs lo mid hi Hep _ IH]; constructor.
  - exact (url_episode_segment Hep).
  - exact IH.
Qed.

(** The whole run as episodes. *)
Lemma on_end_episodes oracle (urls : list Js.jsstring) (w : World) :
  exists w' segs,
    on_end oracle urls w = (Normal tt, w')
    /\ trace w' = trace w ++ [ConsoleLog CsvProcessed; OpenOutput]
                          ++ List.concat segs
                          ++ [EndOutput; ConsoleLog AuditsCompleted]
    /\ calls w <= calls w'
    /\ episodes oracle (calls w) urls segs (calls w').
Proof.
  unfold on_end, bind, emit. cbn [calls trace].
  match goal with
  | |- context [for_each oracle urls ?w0] =>
      destruct (for_each_episodes oracle urls w0)
        as (w' & segs & Hrun & Ht & Hle & Heps)
  end.
  rewrite Hrun. cbn [calls trace] in *.
  do 2 eexists. split; [reflexivity|]. cbn [calls trace].
  split; [rewrite Ht, <- !app_assoc; reflexivity|].
  split; assumption.
Qed.

(** C7.  Whatever the outside world does, the run over a list of URLs
    completes, and what it adds to the trace is, between the opening and the
    closing of the output stream, one episode per URL in the order of the
    list, the calls of each episode following those of the one before.  An
    episode starts when its URL is taken up, holds between one and three
    attempts, the last of which reached a terminal state (it succeeded, or
    the loop gave up on it), and ends with the single row written for that
    URL, which is the result of that last attempt or the sentinel; nothing
    else is written in it, and the next episode starts after the row.  So the
    rows written are one per URL, in input order. *)
Theorem one_row_per_url oracle (urls : list Js.jsstring) (w : World) :
  exists w' segs,
    on_end oracle urls w = (Normal tt, w')
    /\ trace w' = trace w ++ [ConsoleLog CsvProcessed; OpenOutput]
                          ++ List.concat segs
                          ++ [EndOutput; ConsoleLog AuditsCompleted]
    /\ episodes oracle (calls w) urls segs (calls w')
    /\ Forall2 url_segment urls segs
    /\ written (trace w') = written (trace w) ++ written (List.concat segs)
    /\ map url (written (List.concat segs)) = urls
    /\ List.length (written (List.concat segs)) = List.length urls.
Proof.
  destruct (on_end_episodes oracle urls w) as (w' & segs & Hrun & Ht & _ & Heps).
  exists w', segs.
  pose proof (episodes_segments Heps) as Hsegs.
  pose proof (written_segments Hsegs) as Hmap.
  split; [exact Hrun|]. split; [exact Ht|]. split; [exact Heps|].
  split; [exact Hsegs|]. split; [|split; [exact Hmap|]].
  - rewrite Ht, !written_app. cbn [written app]. now rewrite !app_nil_r.
  - rewrite <- Hmap at 1. now rewrite length_map.
Qed.

Lemma sessions_range oracle (count : nat) : forall from,
  (forall k, from <= k < from + count -> session_opened (oracle k) = true) ->
  sessions oracle from count = count.
Proof.
  induction count as [|c IH]; intros from H; [reflexivity|].
  cbn [sessions]. rewrite H by lia. rewrite IH; [reflexivity|].
  intros k Hk. apply H. lia.
Qed.

(** C3, as the code has it.  The browser is closed once per call of the
    runner, not once per URL: in every call that launched its browser and
    opened its page, [browser.close()] is called exactly once, as the last
    thing the call does, whether the call succeeds, fails or times out.  A URL
    takes between one and three calls, and when each call made for it opens
    its session, whatever the calls made for other URLs do, the browser is
    closed as many times as the runner was called for that URL. *)
Theorem teardown_once_per_attempt oracle (u : Js.jsstring) (w : World) :
  (forall k, calls w <= k < calls (after_url oracle u w) ->
             session_opened (oracle k) = true) ->
  (forall b, session_opened b = true ->
             exists t, events b u = t ++ [Close] /\ teardowns t = 0)
  /\ exists t,
       process_url oracle u w = (Normal tt, after_url oracle u w)
       /\ trace (after_url oracle u w) = trace w ++ t
       /\ 1 <= calls (after_url oracle u w) - calls w <= 3
       /\ launches t = calls (after_url oracle u w) - calls w
       /\ teardowns t = calls (after_url oracle u w) - calls w.
Proof.
  intros Hopen. split.
  - intros b Hb. now apply events_close_last.
  - destruct (after_url_spec oracle u w)
      as (v & t & Hrun & Ht & Hw & Hc & Hl & Htd & _).
    eexists. split; [exact Hrun|]. split; [exact Ht|].
    split; [lia|].
    cbn [launches teardowns]. rewrite launches_app, teardowns_app.
    cbn [launches teardowns]. rewrite Hl, Htd, sessions_range; [lia|].
    intros k Hk. apply Hopen. lia.
Qed.

(** One navigation error, then a report: two calls, two teardowns, in a run
    whose later calls cannot open a page. *)
Lemma teardown_once_per_attempt_witness :
  session_opened (Mixed.unreachable_ok_then_no_page 2) = false
  /\ exists t,
       trace (after_url Mixed.unreachable_ok_then_no_page
                Sample.example_com start) = t
       /\ calls (after_url Mixed.unreachable_ok_then_no_page
                   Sample.example_com start) = 2
       /\ teardowns t = 2.
Proof.
  split; [reflexivity|].
  assert (Hopen : forall k,
             calls start <= k
             < calls (after_url Mixed.unreachable_ok_then_no_page
                        Sample.example_com start) ->
             session_opened (Mixed.unreachable_ok_then_no_page k) = true).
  { intros k Hk.
    change (calls (after_url Mixed.unreachable_ok_then_no_page
                     Sample.example_com start)) with 2 in Hk.
    destruct k as [|[|k]]; [reflexivity | reflexivity | lia]. }
  destruct (@teardown_once_per_attempt Mixed.unreachable_ok_then_no_page
              Sample.example_com start Hopen)
    as (_ & t & _ & Ht & _ & _ & Htd).
  exists t. split; [exact Ht|]. split; [reflexivity|].
  rewrite Htd. reflexivity.
Defined.

(** ** What a URL and a run amount to *)

(** X9.  For each URL, from whatever state it is taken up, the runner is
    called at least once and at most three times, and [puppeteer.launch] is
    called exactly once in each call of the runner (whether or not the launch
    succeeds).  Over a run this gives between one and three times as many
    calls as URLs, and as many calls of [puppeteer.launch] as calls of the
    runner. *)
Theorem calls_per_url oracle :
  (forall b u, launches (events b u) = 1)
  /\ (forall u w,
         exists d,
           trace (after_url oracle u w) = trace w ++ d
           /\ 1 <= calls (after_url oracle u w) - calls w <= 3
           /\ launches d = calls (after_url oracle u w) - calls w)
  /\ (forall urls w,
         List.length urls <= run_calls oracle urls w <= 3 * List.length urls
         /\ launches (run_trace oracle urls w) = run_calls oracle urls w).
Proof.
  split; [exact events_launches|]. split.
  - intros u w.
    destruct (process_url_account oracle u w)
      as (row & d & _ & Ht & _ & _ & _ & _ & Hc & Hl & _).
    exists d. split; [exact Ht|]. split; [lia | exact Hl].
  - intros urls w.
    destruct (on_end_account oracle urls w)
      as (d & _ & -> & _ & _ & _ & Hc & Hl & _).
    split; [exact Hc|].
    cbn [launches]. rewrite launches_app, Hl. cbn [launches]. lia.
Qed.

(** X10.  What a URL adds to the trace is its [Processing] line, a pause of
    3000 ms, then between one and three attempts with one pause of 3000 ms
    between two consecutive attempts, and the row: no attempt contains a
    pause, and no pause follows the last attempt.  So a URL with [m] attempts
    takes [m] pauses, and a whole run sleeps 3000 ms times the number of calls
    of the runner. *)
Theorem pauses_per_url oracle :
  (forall u w,
      exists m row,
        1 <= m <= 3
        /\ calls (after_url oracle u w) = calls w + m
        /\ trace (after_url oracle u w)
           = trace w ++ ConsoleLog (Processing u) :: Sleep 3000
                     :: separated_by (Sleep 3000)
                          (attempts oracle u m 1 (calls w))
                     ++ [Write row]
        /\ List.length (attempts oracle u m 1 (calls w)) = m
        /\ Forall (fun a => pauses a = 0) (attempts oracle u m 1 (calls w))
        /\ pauses (separated_by (Sleep 3000) (attempts oracle u m 1 (calls w)))
           = m - 1)
  /\ (forall urls w,
         pauses (run_trace oracle urls w) = run_calls oracle urls w
         /\ waited (run_trace oracle urls w)
            = (3000 * N.of_nat (run_calls oracle urls w))%N).
Proof.
  split.
  - intros u w.
    destruct (process_url_episode oracle u w)
      as (seg & _ & Ht & _ & m & row & Hm & Hhi & -> & Hparts & _).
    exists m, row. unfold maxRetries in Hm.
    split; [exact Hm|]. split; [exact Hhi|]. split; [exact Ht|].
    split; [apply attempts_length|]. split.
    + eapply Forall_impl; [|exact Hparts]. intros a (_ & Hp & _). exact Hp.
    + destruct (separated_counts Hparts) as (_ & Hp & _).
      rewrite Hp, attempts_length. lia.
  - intros urls w.
    destruct (on_end_account oracle urls w)
      as (d & _ & -> & _ & _ & _ & _ & _ & Hp & Hwt & _).
    cbn [pauses waited]. rewrite pauses_app, waited_app, Hp, Hwt.
    cbn [pauses waited]. split; lia.
Qed.

(** X11.  For each URL, from whatever state it is taken up, exactly one row
    is written; it names that URL, its score is a number, never [undefined],
    and it is decided by the last call of the runner made for that very URL:
    the result of that call when it succeeded, the sentinel when it failed. *)
Theorem row_of_url oracle (u : Js.jsstring) (w : World) :
  exists row d,
    trace (after_url oracle u w) = trace w ++ d
    /\ written d = [row]
    /\ url row = u
    /\ has_score row = true
    /\ calls w <= pred (calls (after_url oracle u w))
       < calls (after_url oracle u w)
    /\ calls (after_url oracle u w) <= calls w + 3
    /\ match outcome (oracle (pred (calls (after_url oracle u w)))) u with
       | Normal r => row = result_row u r
       | Throw _ => row = sentinel_row u
       end.
Proof.
  destruct (after_url_spec oracle u w)
    as (v & t & _ & Ht & Hw & Hc & _ & _ & Hv).
  eexists. eexists. split; [exact Ht|].
  cbn [written]. rewrite written_app, Hw. cbn [written app].
  split; [reflexivity|]. split; [reflexivity|].
  destruct (outcome (oracle (pred (calls (after_url oracle u w)))) u);
    subst v; (split; [reflexivity|]); (split; [lia|]); (split; [lia|]);
    reflexivity.
Qed.

(** X13.  When every call of the runner made during a run gets its browser
    launched and its page opened, and every [browser.close()] of the run
    resolves, browsers are used one at a time: none is launched while another
    is open, and none is left open at the end.  Calls that the run does not
    make do not matter. *)
Theorem one_browser_at_a_time oracle (urls : list Js.jsstring) (w : World) :
  (forall i, calls w <= i < calls w + run_calls oracle urls w ->
             session_clean (oracle i) = true) ->
  browser_after false (run_trace oracle urls w) = Some false.
Proof.
  intros Hclean.
  destruct (on_end_account oracle urls w)
    as (d & _ & -> & _ & _ & _ & _ & _ & _ & _ & _ & Hb).
  cbn [browser_after]. rewrite browser_after_app, Hb; [reflexivity|].
  intros i Hi. specialize (Hclean i Hi). unfold session_clean in Hclean.
  apply andb_true_iff in Hclean. exact (proj1 Hclean).
Qed.

(** Two URLs and three calls, in a run whose later calls cannot open a
    page. *)
Lemma one_browser_at_a_time_witness :
  run_calls Mixed.three_calls_then_no_page More.two_urls start = 3
  /\ session_clean (Mixed.three_calls_then_no_page 3) = false
  /\ browser_after false
       (run_trace Mixed.three_calls_then_no_page More.two_urls start)
     = Some false.
Proof.
  split; [reflexivity|]. split; [reflexivity|].
  apply (@one_browser_at_a_time Mixed.three_calls_then_no_page More.two_urls start).
  intros i Hi.
  change (run_calls Mixed.three_calls_then_no_page More.two_urls start) with 3 in Hi.
  destruct i as [|[|[|i]]]; [reflexivity | reflexivity | reflexivity|].
  cbn [calls start] in Hi. lia.
Defined.

(** X15.  From the parsed rows to the output: the run is one episode for each
    row whose [url] is neither missing nor empty, in input order, on the
    normalised [url] of that row, with between one and three calls of the
    runner each, and nothing for the other rows.  So the URLs of the rows
    written are the normalised non-empty [url] values in order, and there are
    never more output rows than input rows. *)
Theorem main_end_to_end oracle (rows : list CsvRow) (w : World) :
  main oracle rows w = on_end oracle (load rows) w
  /\ load rows = flat_map kept rows
  /\ (exists segs,
         run_trace oracle (load rows) w
         = [ConsoleLog CsvProcessed; OpenOutput] ++ List.concat segs
           ++ [EndOutput; ConsoleLog AuditsCompleted]
         /\ episodes oracle (calls w) (flat_map kept rows) segs
              (calls w + run_calls oracle (load rows) w))
  /\ map url (written (run_trace oracle (load rows) w)) = flat_map kept rows
  /\ List.length (written (run_trace oracle (load rows) w)) <= List.length rows.
Proof.
  split; [reflexivity|]. split; [apply load_flat_map|].
  destruct (on_end_episodes oracle (load rows) w)
    as (w' & segs & Hrun & Ht & Hle & Heps).
  assert (Hrt : run_trace oracle (load rows) w
                = [ConsoleLog CsvProcessed; OpenOutput] ++ List.concat segs
                  ++ [EndOutput; ConsoleLog AuditsCompleted]).
  { unfold run_trace. rewrite Hrun. cbn [snd]. rewrite Ht.
    apply skipn_prefix. }
  assert (Hcalls : calls w + run_calls oracle (load rows) w = calls w').
  { unfold run_calls. rewrite Hrun. cbn [snd]. lia. }
  pose proof (written_segments (episodes_segments Heps)) as Hmap.
  assert (Hw : written (run_trace oracle (load rows) w)
               = written (List.concat segs)).
  { rewrite Hrt, !written_app. cbn [written app]. apply app_nil_r. }
  split; [|split].
  - exists segs. split; [exact Hrt|].
    rewrite Hcalls, <- load_flat_map. exact Heps.
  - rewrite Hw, Hmap. apply load_flat_map.
  - rewrite Hw, <- (length_map url), Hmap. apply load_length.
Qed.
